(** * Merchant access lifecycle of the salon booking platform

    A shallow embedding of the merchant subscription code of
    [server/postgres-storage.ts] (class [PostgreSQLStorage]), of the
    development backend [SQLiteStorage], and of the PIX payment polling of
    [client/src/components/auth/merchant-signup-form.tsx], followed by the
    properties of the access lifecycle.

    The [merchants] table is a finite map from the primary key [id] to the
    remaining columns of the row.  Every storage method becomes a function
    of the clock reading(s) it takes with [new Date()] and of the table,
    returning the new table and the method's result, or the error that the
    method raises.  The database is reached through drizzle-orm over the
    postgres-js driver ([server/db-config]); the columns are those of the
    table declarations of [migrate.js]. *)

From stdpp Require Import gmap strings list fin_maps sorting.
From Stdlib Require Import ZArith Lia.

Open Scope string_scope.
Open Scope Z_scope.

(** ** JavaScript dates *)

Module JsDate.

(** The time value of a [Date]: milliseconds since the epoch.  The dates of
    this development stay within the range of [Date], so that none of them
    is an invalid date. *)
Definition Time : Type := Z.

Definition msPerDay : Z := 86400000.

(** [Day] and [TimeWithinDay] of ECMA-262, on the local time line.  The
    server is taken to run in a zone with a fixed offset (UTC), so that
    local days all have [msPerDay] milliseconds. *)
Definition Day (t : Time) : Z := t `div` msPerDay.
Definition TimeWithinDay (t : Time) : Z := t `mod` msPerDay.
Definition MakeDate (day time : Z) : Time := day * msPerDay + time.

(** [d.setDate(d.getDate() + n)]: the day of the month overflows into the
    following months, so the date moves by [n] calendar days and keeps
    its time of day. *)
Definition addDays (t : Time) (n : Z) : Time :=
  MakeDate (Day t + n) (TimeWithinDay t).

(** The year, the month (from 1) and the day of the month of a day number,
    in the proleptic Gregorian calendar. *)
Definition YearMonthDate (day : Z) : Z * Z * Z :=
  let z := day + 719468 in
  let era := z `div` 146097 in
  let doe := z `mod` 146097 in
  let yoe :=
    (doe - doe `div` 1460 + doe `div` 36524 - doe `div` 146096) `div` 365 in
  let doy := doe - (365 * yoe + yoe `div` 4 - yoe `div` 100) in
  let mp := (5 * doy + 2) `div` 153 in
  let d := doy - (153 * mp + 2) `div` 5 + 1 in
  let m := if mp <? 10 then mp + 3 else mp - 9 in
  (yoe + era * 400 + (if m <=? 2 then 1 else 0), m, d).

(** The last [width] decimal digits of [n]. *)
Fixpoint digits (width : nat) (n : Z) : string :=
  match width with
  | O => ""
  | S w =>
      digits w (n `div` 10) +:+
      String (Ascii.ascii_of_nat (48 + Z.to_nat (n `mod` 10))) ""
  end.

(** [d.toISOString()]: [YYYY-MM-DDTHH:mm:ss.sssZ] in UTC, the year with a
    sign and six digits when it is not within 0 to 9999. *)
Definition toISOString (t : Time) : string :=
  let '(y, m, d) := YearMonthDate (Day t) in
  let ms := TimeWithinDay t in
  let year :=
    if (0 <=? y) && (y <=? 9999) then digits 4 y
    else (if y <? 0 then "-" else "+") +:+ digits 6 (Z.abs y) in
  year +:+ "-" +:+ digits 2 m +:+ "-" +:+ digits 2 d +:+ "T" +:+
  digits 2 (ms `div` 3600000) +:+ ":" +:+
  digits 2 ((ms `div` 60000) `mod` 60) +:+ ":" +:+
  digits 2 ((ms `div` 1000) `mod` 60) +:+ "." +:+
  digits 3 (ms `mod` 1000) +:+ "Z".

End JsDate.

Import JsDate.

(** ** The [merchants] table *)

(** Columns of [merchants] that the access lifecycle never assigns. *)
Record Profile : Type := {
  name : string;
  ownerName : string;
  email : string;
  password : string;
  phone : string;
  address : string;
  logoUrl : option string;
  isOpen : bool;
  workDays : string;
  startTime : string;
  endTime : string;
  breakStartTime : option string;
  breakEndTime : option string;
  planValidity : option Time;
  noShowFeeEnabled : bool;
  noShowFeeAmount : option Z;
  lateFeeEnabled : bool;
  lateFeeAmount : option Z;
  lateToleranceMinutes : option Z;
  cancellationPolicyHours : option Z;
  cancellationFeeEnabled : bool;
  cancellationFeeAmount : option Z;
  createdAt : Time
}.

(** A row of [merchants] without its key.  [status], [paymentStatus] and
    [planStatus] are [text] columns; nullable columns are options. *)
Record Merchant : Type := {
  status : string;
  accessStartDate : option Time;
  accessEndDate : option Time;
  accessDurationDays : option Z;
  lastPaymentDate : option Time;
  nextPaymentDue : option Time;
  monthlyFee : option Z;
  paymentStatus : string;
  planStatus : string;
  updatedAt : Time;
  profile : Profile
}.

(** The object given to [.set(...)]: a partial assignment of columns, [None]
    for a key that the object does not have. *)
Record Updates : Type := {
  upd_status : option string;
  upd_accessStartDate : option (option Time);
  upd_accessEndDate : option (option Time);
  upd_accessDurationDays : option (option Z);
  upd_lastPaymentDate : option (option Time);
  upd_nextPaymentDue : option (option Time);
  upd_monthlyFee : option (option Z);
  upd_paymentStatus : option string;
  upd_planStatus : option string;
  upd_updatedAt : option Time
}.

(** The row after [UPDATE merchants SET ...]: the assigned columns take the
    new values, the others keep theirs. *)
Definition set (u : Updates) (m : Merchant) : Merchant := {|
  status := default (status m) (upd_status u);
  accessStartDate := default (accessStartDate m) (upd_accessStartDate u);
  accessEndDate := default (accessEndDate m) (upd_accessEndDate u);
  accessDurationDays := default (accessDurationDays m) (upd_accessDurationDays u);
  lastPaymentDate := default (lastPaymentDate m) (upd_lastPaymentDate u);
  nextPaymentDue := default (nextPaymentDue m) (upd_nextPaymentDue u);
  monthlyFee := default (monthlyFee m) (upd_monthlyFee u);
  paymentStatus := default (paymentStatus m) (upd_paymentStatus u);
  planStatus := default (planStatus m) (upd_planStatus u);
  updatedAt := default (updatedAt m) (upd_updatedAt u);
  profile := profile m
|}.

Abbreviation Store := (gmap string Merchant).

(** [db.select().from(merchants).where(eq(merchants.id, id))]: the rows
    with that key. *)
Definition select_by_id (id : string) (st : Store) : list Merchant :=
  match st !! id with
  | Some m => [m]
  | None => []
  end.

(** [db.update(merchants).set(u).where(eq(merchants.id, id)).execute()]. *)
Definition update_by_id (u : Updates) (id : string) (st : Store) : Store :=
  alter (set u) id st.

(** The same statement with [.returning()]: the new table and the rows as
    they are after the update. *)
Definition update_by_id_returning (u : Updates) (id : string) (st : Store)
  : Store * list Merchant :=
  (update_by_id u id st, select_by_id id (update_by_id u id st)).

(** A selected row with its key. *)
Abbreviation Row := (string * Merchant)%type.

(** The values that the storage code hands to the query builder as the
    right-hand side of a comparison with a timestamp column. *)
Inductive JsValue : Type :=
| JsDate (t : Time)
| JsString (s : string).

(** The error that a rejected promise of the storage code carries. *)
Inductive JsError : Type :=
| TypeError.

(** The encoding of a parameter compared with [merchants.accessEndDate].
    The table declaration of [migrate.js] has the column as
    [timestamp("access_end_date")], a drizzle column that holds [Date]
    objects, and the storage class writes it with [Date] objects; drizzle
    binds the value to the column and encodes it with the column's
    [mapToDriverValue], which is [value.toISOString()].  A [Date] gives the
    text of its instant, given here by the instant itself; a string has no
    method [toISOString], and the call raises a [TypeError] while the query
    is built, before any statement reaches the database. *)
Definition mapToDriverValue (value : JsValue) : JsError + Time :=
  match value with
  | JsDate t => inr t
  | JsString _ => inl TypeError
  end.

(** What [execute()] resolves to for a statement without [.returning()],
    with the postgres-js driver of [db-config]: the driver's list of rows,
    empty here, which carries the number of rows that the statement
    reached in its property [count]. *)
Record RowList : Type := {
  count : nat
}.

(** [result[name]] for a numeric property; a property that the object
    does not have is [undefined].  The driver's result has no [rowCount]. *)
Definition property (result : RowList) (name : string) : option Z :=
  if bool_decide (name = "count") then Some (Z.of_nat (count result))
  else if bool_decide (name = "length") then Some 0
  else None.

(** [x > 0], where [undefined] converts to [NaN] and compares false. *)
Definition gt_zero (x : option Z) : bool :=
  match x with
  | Some n => 0 <? n
  | None => false
  end.

(** [x || d] on a nullable integer column: [null] and [0] are falsy. *)
Definition or_number (x : option Z) (d : Z) : Z :=
  match x with
  | Some v => if bool_decide (v = 0) then d else v
  | None => d
  end.

(** [x || d] and [x ? x : d] on a nullable timestamp column: a [Date]
    object is truthy, only [null] is falsy. *)
Definition or_date (x : option Time) (d : Time) : Time :=
  match x with
  | Some v => v
  | None => d
  end.

(** The counters returned by [getMerchantsAccessStatus]. *)
Record AccessStatus : Type := {
  activeAccess : nat;
  expiredAccess : nat;
  paymentPending : nat;
  trialUsers : nat;
  vipUsers : nat
}.

(** A string in a condition: only the empty string is falsy. *)
Definition truthy (x : string) : bool := negb (bool_decide (x = "")).

(** An optional string in a condition: an absent key is falsy too. *)
Definition truthy_key (x : option string) : bool :=
  match x with
  | Some v => truthy v
  | None => false
  end.

(** ** The [employees] table *)

Module Employees.

(** A row of [employees] without its key. *)
Record Employee : Type := {
  merchantId : string;
  name : string;
  email : string;
  password : string;
  phone : string;
  role : string;
  specialties : option string;
  workDays : string;
  startTime : string;
  endTime : string;
  breakStartTime : option string;
  breakEndTime : option string;
  paymentType : string;
  paymentValue : Z;
  extendedEndTime : option string;
  overtimeHours : option Z;
  lastOvertimeDate : option string;
  isActive : bool;
  createdAt : Time;
  updatedAt : Time
}.

(** [Partial<InsertEmployee>]: the columns other than [id], [createdAt]
    and [updatedAt], each one optional. *)
Record Patch : Type := {
  set_merchantId : option string;
  set_name : option string;
  set_email : option string;
  set_password : option string;
  set_phone : option string;
  set_role : option string;
  set_specialties : option (option string);
  set_workDays : option string;
  set_startTime : option string;
  set_endTime : option string;
  set_breakStartTime : option (option string);
  set_breakEndTime : option (option string);
  set_paymentType : option string;
  set_paymentValue : option Z;
  set_extendedEndTime : option (option string);
  set_overtimeHours : option (option Z);
  set_lastOvertimeDate : option (option string);
  set_isActive : option bool
}.


(** Whether the object has the key. *)
Definition hasKey {A : Type} (x : option A) : bool :=
  match x with
  | Some _ => true
  | None => false
  end.

(** [Object.keys(updates).length > 0] *)
Definition hasKeys (u : Patch) : bool :=
  hasKey (set_merchantId u) || hasKey (set_name u) ||
  hasKey (set_email u) || hasKey (set_password u) ||
  hasKey (set_phone u) || hasKey (set_role u) ||
  hasKey (set_specialties u) || hasKey (set_workDays u) ||
  hasKey (set_startTime u) || hasKey (set_endTime u) ||
  hasKey (set_breakStartTime u) || hasKey (set_breakEndTime u) ||
  hasKey (set_paymentType u) || hasKey (set_paymentValue u) ||
  hasKey (set_extendedEndTime u) || hasKey (set_overtimeHours u) ||
  hasKey (set_lastOvertimeDate u) || hasKey (set_isActive u).

(** [updates.password = p] *)
Definition withPassword (p : string) (u : Patch) : Patch := {|
  set_merchantId := set_merchantId u;
  set_name := set_name u;
  set_email := set_email u;
  set_password := Some p;
  set_phone := set_phone u;
  set_role := set_role u;
  set_specialties := set_specialties u;
  set_workDays := set_workDays u;
  set_startTime := set_startTime u;
  set_endTime := set_endTime u;
  set_breakStartTime := set_breakStartTime u;
  set_breakEndTime := set_breakEndTime u;
  set_paymentType := set_paymentType u;
  set_paymentValue := set_paymentValue u;
  set_extendedEndTime := set_extendedEndTime u;
  set_overtimeHours := set_overtimeHours u;
  set_lastOvertimeDate := set_lastOvertimeDate u;
  set_isActive := set_isActive u
|}.

(** [{ ...existing, ...updates, updatedAt: now }] *)
Definition merge (existing : Employee) (updates : Patch) (now : Time) : Employee := {|
  merchantId := default (merchantId existing) (set_merchantId updates);
  name := default (name existing) (set_name updates);
  email := default (email existing) (set_email updates);
  password := default (password existing) (set_password updates);
  phone := default (phone existing) (set_phone updates);
  role := default (role existing) (set_role updates);
  specialties := default (specialties existing) (set_specialties updates);
  workDays := default (workDays existing) (set_workDays updates);
  startTime := default (startTime existing) (set_startTime updates);
  endTime := default (endTime existing) (set_endTime updates);
  breakStartTime := default (breakStartTime existing) (set_breakStartTime updates);
  breakEndTime := default (breakEndTime existing) (set_breakEndTime updates);
  paymentType := default (paymentType existing) (set_paymentType updates);
  paymentValue := default (paymentValue existing) (set_paymentValue updates);
  extendedEndTime := default (extendedEndTime existing) (set_extendedEndTime updates);
  overtimeHours := default (overtimeHours existing) (set_overtimeHours updates);
  lastOvertimeDate := default (lastOvertimeDate existing) (set_lastOvertimeDate updates);
  isActive := default (isActive existing) (set_isActive updates);
  createdAt := createdAt existing;
  updatedAt := now
|}.

End Employees.

Abbreviation EmployeeStore := (gmap string Employees.Employee).
Abbreviation EmployeeRow := (string * Employees.Employee)%type.

(** ** Updates of a whole merchant *)

(** [Partial<InsertMerchant>]: the columns of [merchants] other than [id],
    [createdAt] and [updatedAt], each one optional; the access columns are
    those of [Updates]. *)
Record MerchantPatch : Type := {
  patch_access : Updates;
  patch_name : option string;
  patch_ownerName : option string;
  patch_email : option string;
  patch_password : option string;
  patch_phone : option string;
  patch_address : option string;
  patch_logoUrl : option (option string);
  patch_isOpen : option bool;
  patch_workDays : option string;
  patch_startTime : option string;
  patch_endTime : option string;
  patch_breakStartTime : option (option string);
  patch_breakEndTime : option (option string);
  patch_planValidity : option (option Time);
  patch_noShowFeeEnabled : option bool;
  patch_noShowFeeAmount : option (option Z);
  patch_lateFeeEnabled : option bool;
  patch_lateFeeAmount : option (option Z);
  patch_lateToleranceMinutes : option (option Z);
  patch_cancellationPolicyHours : option (option Z);
  patch_cancellationFeeEnabled : option bool;
  patch_cancellationFeeAmount : option (option Z)
}.

(** The methods whose text is the same in both storage classes, over the
    methods of the class that they call with [this]. *)
Module StorageMethods.

(** [processedUpdates.password]: the hash of a password that is truthy,
    the given value otherwise. *)
Definition processedPassword (hash : string → string) (p : option string)
  : option string :=
  match p with
  | Some v => if truthy v then Some (hash v) else Some v
  | None => None
  end.

(** The [updatedMerchant] of [updateMerchant]:
    [{ ...existingMerchant, ...processedUpdates,
       planStatus: processedUpdates.planStatus || existingMerchant.planStatus,
       planValidity: processedUpdates.planValidity || existingMerchant.planValidity,
       updatedAt: new Date() }]. *)
Definition updatedMerchant (hash : string → string) (existingMerchant : Merchant)
    (updates : MerchantPatch) (now : Time) : Merchant :=
  let a := patch_access updates in
  let old := profile existingMerchant in
  {| status := default (status existingMerchant) (upd_status a);
     accessStartDate :=
       default (accessStartDate existingMerchant) (upd_accessStartDate a);
     accessEndDate := default (accessEndDate existingMerchant) (upd_accessEndDate a);
     accessDurationDays :=
       default (accessDurationDays existingMerchant) (upd_accessDurationDays a);
     lastPaymentDate :=
       default (lastPaymentDate existingMerchant) (upd_lastPaymentDate a);
     nextPaymentDue := default (nextPaymentDue existingMerchant) (upd_nextPaymentDue a);
     monthlyFee := default (monthlyFee existingMerchant) (upd_monthlyFee a);
     paymentStatus := default (paymentStatus existingMerchant) (upd_paymentStatus a);
     planStatus :=
       match upd_planStatus a with
       | Some v => if truthy v then v else planStatus existingMerchant
       | None => planStatus existingMerchant
       end;
     updatedAt := now;
     profile :=
       {| name := default (name old) (patch_name updates);
          ownerName := default (ownerName old) (patch_ownerName updates);
          email := default (email old) (patch_email updates);
          password :=
            default (password old) (processedPassword hash (patch_password updates));
          phone := default (phone old) (patch_phone updates);
          address := default (address old) (patch_address updates);
          logoUrl := default (logoUrl old) (patch_logoUrl updates);
          isOpen := default (isOpen old) (patch_isOpen updates);
          workDays := default (workDays old) (patch_workDays updates);
          startTime := default (startTime old) (patch_startTime updates);
          endTime := default (endTime old) (patch_endTime updates);
          breakStartTime := default (breakStartTime old) (patch_breakStartTime updates);
          breakEndTime := default (breakEndTime old) (patch_breakEndTime updates);
          planValidity :=
            match patch_planValidity updates with
            | Some (Some v) => Some v
            | _ => planValidity old
            end;
          noShowFeeEnabled :=
            default (noShowFeeEnabled old) (patch_noShowFeeEnabled updates);
          noShowFeeAmount :=
            default (noShowFeeAmount old) (patch_noShowFeeAmount updates);
          lateFeeEnabled := default (lateFeeEnabled old) (patch_lateFeeEnabled updates);
          lateFeeAmount := default (lateFeeAmount old) (patch_lateFeeAmount updates);
          lateToleranceMinutes :=
            default (lateToleranceMinutes old) (patch_lateToleranceMinutes updates);
          cancellationPolicyHours :=
            default (cancellationPolicyHours old)
                    (patch_cancellationPolicyHours updates);
          cancellationFeeEnabled :=
            default (cancellationFeeEnabled old)
                    (patch_cancellationFeeEnabled updates);
          cancellationFeeAmount :=
            default (cancellationFeeAmount old) (patch_cancellationFeeAmount updates);
          createdAt := createdAt old |} |}.

(** The [updates] that [syncEmployeeHoursWithMerchant] builds for one
    employee: a key for each of the merchant's hours that is truthy and
    differs from the employee's. *)
Definition hoursUpdates (merchant : Merchant) (employee : Employees.Employee)
  : Employees.Patch :=
  let differs (x y : string) : option string :=
    if truthy x && negb (bool_decide (x = y)) then Some x else None in
  {| Employees.set_merchantId := None;
     Employees.set_name := None;
     Employees.set_email := None;
     Employees.set_password := None;
     Employees.set_phone := None;
     Employees.set_role := None;
     Employees.set_specialties := None;
     Employees.set_workDays :=
       differs (workDays (profile merchant)) (Employees.workDays employee);
     Employees.set_startTime :=
       differs (startTime (profile merchant)) (Employees.startTime employee);
     Employees.set_endTime :=
       differs (endTime (profile merchant)) (Employees.endTime employee);
     Employees.set_breakStartTime := None;
     Employees.set_breakEndTime := None;
     Employees.set_paymentType := None;
     Employees.set_paymentValue := None;
     Employees.set_extendedEndTime := None;
     Employees.set_overtimeHours := None;
     Employees.set_lastOvertimeDate := None;
     Employees.set_isActive := None |}.

Section Methods.

(** [this.getEmployeesByMerchant] and [this.updateEmployee], the latter
    with the clock reading that it takes. *)
Variable getEmployeesByMerchant : string → EmployeeStore → list EmployeeRow.
Variable updateEmployee :
  string → Employees.Patch → Time → EmployeeStore →
  EmployeeStore * option Employees.Employee.

(** One iteration of the loop of [syncEmployeeHoursWithMerchant]; the
    accumulator is the table and the number of clock readings taken. *)
Definition syncOne (merchant : Merchant) (clock : nat → Time)
    (acc : EmployeeStore * nat) (employee : EmployeeRow) : EmployeeStore * nat :=
  let updates := hoursUpdates merchant employee.2 in
  if Employees.hasKeys updates
  then ((updateEmployee employee.1 updates (clock acc.2) acc.1).1, S acc.2)
  else acc.

Definition syncEmployeeHoursWithMerchant (merchantId : string) (merchant : Merchant)
    (clock : nat → Time) (es : EmployeeStore) : EmployeeStore :=
  let employees := getEmployeesByMerchant merchantId es in
  (foldl (syncOne merchant clock) (es, 0%nat) employees).1.

(** [updateMerchant]: [hash] is [bcrypt.hash(_, 10)] as it answers in this
    call, [now] the clock reading of [updatedAt], [clock] the readings taken
    while the employees are synchronised. *)
Definition updateMerchant (hash : string → string) (id : string)
    (updates : MerchantPatch) (now : Time) (clock : nat → Time)
    (ms : Store) (es : EmployeeStore)
  : Store * EmployeeStore * option Merchant :=
  match head (select_by_id id ms) with
  | None => (ms, es, None)
  | Some existingMerchant =>
      let merchant := updatedMerchant hash existingMerchant updates now in
      let ms' := alter (λ _, merchant) id ms in
      let es' :=
        if truthy_key (patch_startTime updates) ||
           truthy_key (patch_endTime updates) ||
           truthy_key (patch_workDays updates)
        then syncEmployeeHoursWithMerchant id merchant clock es
        else es in
      (ms', es', Some merchant)
  end.

End Methods.

End StorageMethods.

(** ** The production backend *)

Module PostgreSQLStorage.

(** [getMerchant]: [rows[0]], and [undefined] when there is none. *)
Definition getMerchant (id : string) (st : Store) : option Merchant :=
  head (select_by_id id st).

(** The callback of the [activeAccess] counter:
    [m.status === "active" &&
     (!m.accessEndDate || new Date(m.accessEndDate) > now)]. *)
Definition isActiveAccess (now : Time) (m : Merchant) : bool :=
  bool_decide (status m = "active") &&
  match accessEndDate m with
  | None => true
  | Some e => (e >? now)%Z
  end.

(** The callback of the [expiredAccess] counter:
    [m.accessEndDate && new Date(m.accessEndDate) <= now]. *)
Definition isExpiredAccess (now : Time) (m : Merchant) : bool :=
  match accessEndDate m with
  | None => false
  | Some e => (e <=? now)%Z
  end.

Definition getMerchantsAccessStatus (now : Time) (st : Store) : AccessStatus :=
  let allMerchants := (map_to_list st).*2 in
  {| activeAccess := length (filter (λ m, isActiveAccess now m) allMerchants);
     expiredAccess := length (filter (λ m, isExpiredAccess now m) allMerchants);
     paymentPending :=
       length (filter (λ m, status m = "payment_pending") allMerchants);
     trialUsers := length (filter (λ m, paymentStatus m = "trial") allMerchants);
     vipUsers :=
       length (filter (λ m, paymentStatus m = "paid" ∧ planStatus m = "vip")
                      allMerchants) |}.

(** The condition of the expiry queries on the data of a row:
    [and(eq(merchants.status, "active"),
         lte(merchants.accessEndDate, now.toISOString()))].
    In SQL a [NULL] end date satisfies no comparison. *)
Definition whereExpired (now : Time) (m : Merchant) : bool :=
  bool_decide (status m = "active") &&
  match accessEndDate m with
  | None => false
  | Some e => (e <=? now)%Z
  end.

(** [db.select().from(merchants).where(and(eq(merchants.status, "active"),
    lte(merchants.accessEndDate, value))).execute()]: the parameter is encoded
    first, and the rows are selected when that has given an instant. *)
Definition selectExpired (value : JsValue) (st : Store) : JsError + list Row :=
  match mapToDriverValue value with
  | inl error => inl error
  | inr bound => inr (filter (λ r : Row, whereExpired bound r.2) (map_to_list st))
  end.

(** [getMerchantsWithExpiredAccess]: the query, with [now.toISOString()] as
    the value compared. *)
Definition getMerchantsWithExpiredAccess (now : Time) (st : Store)
  : JsError + list Row :=
  selectExpired (JsString (toISOString now)) st.

(** The assignment made for one expired merchant, [t] being the
    [new Date()] of that iteration. *)
Definition expiredUpdates (t : Time) : Updates := {|
  upd_status := Some "payment_pending";
  upd_accessStartDate := None;
  upd_accessEndDate := None;
  upd_accessDurationDays := None;
  upd_lastPaymentDate := None;
  upd_nextPaymentDue := None;
  upd_monthlyFee := None;
  upd_paymentStatus := None;
  upd_planStatus := None;
  upd_updatedAt := Some t
|}.

(** One iteration of the [for] loop of [processExpiredAccess]; the
    accumulator is the table and the number of iterations done. *)
Definition expireOne (clock : nat → Time) (acc : Store * nat) (merchant : Row)
  : Store * nat :=
  (update_by_id (expiredUpdates (clock acc.2)) merchant.1 acc.1, S acc.2).

(** The [for] loop of [processExpiredAccess] over the selected rows. *)
Definition expireAll (clock : nat → Time) (expiredMerchants : list Row)
    (st : Store) : Store :=
  (foldl (expireOne clock) (st, 0%nat) expiredMerchants).1.

(** [processExpiredAccess]: [now] is the clock reading of the query,
    [clock k] the reading of the [k]-th iteration of the loop.  An error of
    the query is the error of the method: nothing catches it. *)
Definition processExpiredAccess (now : Time) (clock : nat → Time) (st : Store)
  : Store * (JsError + nat) :=
  match selectExpired (JsString (toISOString now)) st with
  | inl error => (st, inl error)
  | inr expiredMerchants =>
      (expireAll clock expiredMerchants st, inr (length expiredMerchants))
  end.

Definition grantUpdates (durationDays : Z) (monthlyFee : option Z) (now : Time)
  : Updates :=
  let accessEndDate := addDays now durationDays in
  let nextPaymentDue := addDays accessEndDate durationDays in
  {| upd_status := Some "active";
     upd_accessStartDate := Some (Some now);
     upd_accessEndDate := Some (Some accessEndDate);
     upd_accessDurationDays := Some (Some durationDays);
     upd_lastPaymentDate := Some (Some now);
     upd_nextPaymentDue := Some (Some nextPaymentDue);
     upd_monthlyFee :=
       match monthlyFee with
       | Some fee => Some (Some fee)
       | None => None
       end;
     upd_paymentStatus := Some "paid";
     upd_planStatus := None;
     upd_updatedAt := Some now |}.

(** [grantMerchantAccess]: one [UPDATE ... RETURNING], [null] when it
    returns no row. *)
Definition grantMerchantAccess (merchantId : string) (durationDays : Z)
    (monthlyFee : option Z) (now : Time) (st : Store) : Store * option Merchant :=
  let updates := grantUpdates durationDays monthlyFee now in
  let '(st', rows) := update_by_id_returning updates merchantId st in
  (st', head rows).

Definition suspendUpdates (now : Time) : Updates := {|
  upd_status := Some "payment_pending";
  upd_accessStartDate := None;
  upd_accessEndDate := None;
  upd_accessDurationDays := None;
  upd_lastPaymentDate := None;
  upd_nextPaymentDue := None;
  upd_monthlyFee := None;
  upd_paymentStatus := None;
  upd_planStatus := None;
  upd_updatedAt := Some now
|}.

Definition suspendMerchantAccess (merchantId : string) (now : Time) (st : Store)
  : Store * option Merchant :=
  let st' := update_by_id (suspendUpdates now) merchantId st in
  (st', getMerchant merchantId st').

(** The dates computed by [renewMerchantAccess] from the row it read. *)
Definition renewBaseDate (merchant : Merchant) (now : Time) : Time :=
  let currentEndDate := or_date (accessEndDate merchant) now in
  if (currentEndDate >? now)%Z then currentEndDate else now.

Definition renewDurationDays (merchant : Merchant) : Z :=
  or_number (accessDurationDays merchant) 30.

Definition renewUpdates (merchant : Merchant) (now : Time) : Updates :=
  let baseDate := renewBaseDate merchant now in
  let durationDays := renewDurationDays merchant in
  let newEndDate := addDays baseDate durationDays in
  let newPaymentDue := addDays newEndDate durationDays in
  {| upd_status := Some "active";
     upd_accessStartDate := Some (Some (or_date (accessStartDate merchant) now));
     upd_accessEndDate := Some (Some newEndDate);
     upd_accessDurationDays := None;
     upd_lastPaymentDate := Some (Some now);
     upd_nextPaymentDue := Some (Some newPaymentDue);
     upd_monthlyFee := None;
     upd_paymentStatus := Some "paid";
     upd_planStatus := None;
     upd_updatedAt := Some now |}.

(** [renewMerchantAccess]: a [SELECT] of the row, [null] when it is not
    there, then one [UPDATE ... RETURNING]. *)
Definition renewMerchantAccess (merchantId : string) (now : Time) (st : Store)
  : Store * option Merchant :=
  match head (select_by_id merchantId st) with
  | None => (st, None)
  | Some merchant =>
      let '(st', rows) :=
        update_by_id_returning (renewUpdates merchant now) merchantId st in
      (st', head rows)
  end.

(** [updateMerchantAccessSettings]: [{ ...settings, updatedAt: now }] is
    written as it is.  [settings] is taken to assign access columns
    only. *)
Definition settingsUpdates (settings : Updates) (now : Time) : Updates := {|
  upd_status := upd_status settings;
  upd_accessStartDate := upd_accessStartDate settings;
  upd_accessEndDate := upd_accessEndDate settings;
  upd_accessDurationDays := upd_accessDurationDays settings;
  upd_lastPaymentDate := upd_lastPaymentDate settings;
  upd_nextPaymentDue := upd_nextPaymentDue settings;
  upd_monthlyFee := upd_monthlyFee settings;
  upd_paymentStatus := upd_paymentStatus settings;
  upd_planStatus := upd_planStatus settings;
  upd_updatedAt := Some now
|}.

Definition updateMerchantAccessSettings (merchantId : string) (settings : Updates)
    (now : Time) (st : Store) : Store * option Merchant :=
  let '(st', rows) :=
    update_by_id_returning (settingsUpdates settings now) merchantId st in
  (st', head rows).

(** The order of the comparison [b.createdAt - a.createdAt]: [a] may come
    before [b]. *)
Definition newerFirst (a b : Row) : Prop :=
  createdAt (profile b.2) ≤ createdAt (profile a.2).

#[global] Instance newerFirst_dec : RelDecision newerFirst.
Proof. intros a b. unfold newerFirst. apply _. Defined.

(** [getAllMerchants]: the rows, sorted with that comparison. *)
Definition getAllMerchants (st : Store) : list Row :=
  merge_sort newerFirst (map_to_list st).

(** [deleteMerchant]: the table without the row, and
    [result.rowCount > 0] on the result of the statement. *)
Definition deleteMerchant (id : string) (st : Store) : Store * bool :=
  let result := {| count := length (select_by_id id st) |} in
  (delete id st, gt_zero (property result "rowCount")).

(** The row after [.set({ password: hashedPassword, updatedAt: now })]. *)
Definition setPassword (hashedPassword : string) (now : Time) (m : Merchant)
  : Merchant := {|
  status := status m;
  accessStartDate := accessStartDate m;
  accessEndDate := accessEndDate m;
  accessDurationDays := accessDurationDays m;
  lastPaymentDate := lastPaymentDate m;
  nextPaymentDue := nextPaymentDue m;
  monthlyFee := monthlyFee m;
  paymentStatus := paymentStatus m;
  planStatus := planStatus m;
  updatedAt := now;
  profile :=
    {| name := name (profile m);
       ownerName := ownerName (profile m);
       email := email (profile m);
       password := hashedPassword;
       phone := phone (profile m);
       address := address (profile m);
       logoUrl := logoUrl (profile m);
       isOpen := isOpen (profile m);
       workDays := workDays (profile m);
       startTime := startTime (profile m);
       endTime := endTime (profile m);
       breakStartTime := breakStartTime (profile m);
       breakEndTime := breakEndTime (profile m);
       planValidity := planValidity (profile m);
       noShowFeeEnabled := noShowFeeEnabled (profile m);
       noShowFeeAmount := noShowFeeAmount (profile m);
       lateFeeEnabled := lateFeeEnabled (profile m);
       lateFeeAmount := lateFeeAmount (profile m);
       lateToleranceMinutes := lateToleranceMinutes (profile m);
       cancellationPolicyHours := cancellationPolicyHours (profile m);
       cancellationFeeEnabled := cancellationFeeEnabled (profile m);
       cancellationFeeAmount := cancellationFeeAmount (profile m);
       createdAt := createdAt (profile m) |}
|}.

(** [updateMerchantPassword]: the [try] block ends in [return true]
    whatever the number of rows that the update reached. *)
Definition updateMerchantPassword (hash : string → string) (id : string)
    (newPassword : string) (now : Time) (st : Store) : Store * bool :=
  let hashedPassword := hash newPassword in
  (alter (setPassword hashedPassword now) id st, true).

(** [getEmployee]: [rows[0]], and [undefined] when there is none. *)
Definition getEmployee (id : string) (es : EmployeeStore)
  : option Employees.Employee :=
  es !! id.

(** [getEmployeesByMerchant], without its logging: the query, and the
    check of the rows that it returned. *)
Definition getEmployeesByMerchant (merchantId : string) (es : EmployeeStore)
  : list EmployeeRow :=
  let result :=
    filter (λ r : EmployeeRow, Employees.merchantId r.2 = merchantId)
           (map_to_list es) in
  let invalidEmployees :=
    filter (λ r : EmployeeRow, Employees.merchantId r.2 ≠ merchantId) result in
  let validEmployees :=
    filter (λ r : EmployeeRow, Employees.merchantId r.2 = merchantId) result in
  if bool_decide (0 < length invalidEmployees)%nat then validEmployees else result.

(** [updateEmployee]: the row read, merged and written back whole. *)
Definition updateEmployee (hash : string → string) (id : string)
    (updates : Employees.Patch) (now : Time) (es : EmployeeStore)
  : EmployeeStore * option Employees.Employee :=
  match getEmployee id es with
  | None => (es, None)
  | Some existingEmployee =>
      let processedUpdates :=
        if truthy_key (Employees.set_password updates)
        then Employees.withPassword
               (hash (default "" (Employees.set_password updates))) updates
        else updates in
      let updatedEmployee := Employees.merge existingEmployee processedUpdates now in
      (alter (λ _, updatedEmployee) id es, Some updatedEmployee)
  end.

Definition syncEmployeeHoursWithMerchant (hash : string → string) :=
  StorageMethods.syncEmployeeHoursWithMerchant
    getEmployeesByMerchant (updateEmployee hash).

Definition updateMerchant (hash : string → string) :=
  StorageMethods.updateMerchant
    getEmployeesByMerchant (updateEmployee hash) hash.

End PostgreSQLStorage.

(** ** The development backend *)

Module SQLiteStorage.

(** [processExpiredAccess] of the SQLite backend: [return 0]. *)
Definition processExpiredAccess (now : Time) (clock : nat → Time) (st : Store)
  : Store * (JsError + nat) :=
  (st, inr 0%nat).

Definition getEmployee (id : string) (es : EmployeeStore)
  : option Employees.Employee :=
  es !! id.

Definition getEmployeesByMerchant (merchantId : string) (es : EmployeeStore)
  : list EmployeeRow :=
  filter (λ r : EmployeeRow, Employees.merchantId r.2 = merchantId) (map_to_list es).

(** [updateEmployee]: [.set({ ...updates, updatedAt: new Date() })], then
    [getEmployee]. *)
Definition updateEmployee (id : string) (updates : Employees.Patch) (now : Time)
    (es : EmployeeStore) : EmployeeStore * option Employees.Employee :=
  let es' := alter (λ e, Employees.merge e updates now) id es in
  (es', getEmployee id es').

Definition syncEmployeeHoursWithMerchant :=
  StorageMethods.syncEmployeeHoursWithMerchant getEmployeesByMerchant updateEmployee.

Definition updateMerchant (hash : string → string) :=
  StorageMethods.updateMerchant getEmployeesByMerchant updateEmployee hash.

End SQLiteStorage.

(** ** The backend switch of [storage.ts] *)

Module Storage.

(** The part of [IStorage] that the expiry job uses. *)
Record IStorage : Type := {
  processExpiredAccess : Time → (nat → Time) → Store → Store * (JsError + nat)
}.

Definition PostgreSQLStorage : IStorage :=
  {| processExpiredAccess := PostgreSQLStorage.processExpiredAccess |}.

Definition SQLiteStorage : IStorage :=
  {| processExpiredAccess := SQLiteStorage.processExpiredAccess |}.

(** [isProduction] is [process.env.NODE_ENV === "production"]. *)
Definition storage (isProduction : bool) : IStorage :=
  if isProduction then PostgreSQLStorage else SQLiteStorage.

End Storage.

(** ** The PIX payment polling of the signup form *)

Module MerchantSignupForm.

(** The [paymentStatus] state of the component. *)
Inductive PaymentStatus : Type := pending | processing | approved | failed.

#[global] Instance PaymentStatus_eq_dec : EqDecision PaymentStatus.
Proof. solve_decision. Defined.

(** The toasts of the polling code, by title. *)
Inductive Toast : Type :=
| PagamentoAprovado
| PagamentoNaoAprovado
| TempoEsgotado.

(** What one request of [/api/payment/status/:id] gives: the [status] of
    the body, or an exception of [fetch] or [response.json()]. *)
Inductive Check : Type :=
| Status (s : string)
| Threw.

(** The component with its timers and requests, as far as the polling code
    reads and writes them: [checkInterval] tells whether the interval timer
    is armed, [signupTimers] how many times [setTimeout(handleSignup, 2000)]
    has been called, [requests] how many status requests have been sent, and
    [inFlight] which of them have not been answered yet. *)
Record Form : Type := {
  paymentStatus : PaymentStatus;
  isCheckingPayment : bool;
  checkInterval : bool;
  toasts : list Toast;
  signupTimers : nat;
  requests : nat;
  inFlight : list nat
}.

Definition checkIntervalMs : Z := 3000.
Definition ceilingMs : Z := 30 * 60 * 1000.

(** A timer never fires early: at most this many interval callbacks are
    due by the time the 30 minute timeout is. *)
Definition maxChecks : nat := Z.to_nat (ceilingMs `div` checkIntervalMs).

Definition clearInterval (f : Form) : Form := {|
  paymentStatus := paymentStatus f;
  isCheckingPayment := isCheckingPayment f;
  checkInterval := false;
  toasts := toasts f;
  signupTimers := signupTimers f;
  requests := requests f;
  inFlight := inFlight f
|}.

(** The callback of [setInterval] up to its first [await]:
    [setIsCheckingPayment(true)], and the request is sent.  The requests are
    numbered in the order in which they are sent. *)
Definition sendRequest (f : Form) : Form := {|
  paymentStatus := paymentStatus f;
  isCheckingPayment := true;
  checkInterval := checkInterval f;
  toasts := toasts f;
  signupTimers := signupTimers f;
  requests := S (requests f);
  inFlight := (inFlight f ++ [requests f])%list
|}.

(** The request [k] has been answered. *)
Definition answered (k : nat) (f : Form) : Form := {|
  paymentStatus := paymentStatus f;
  isCheckingPayment := isCheckingPayment f;
  checkInterval := checkInterval f;
  toasts := toasts f;
  signupTimers := signupTimers f;
  requests := requests f;
  inFlight := filter (λ j, j ≠ k) (inFlight f)
|}.

(** The rest of the callback, the request having given [r].  Nothing in
    it asks whether the interval is still armed. *)
Definition checkPaymentStatus (r : Check) (f : Form) : Form :=
  match r with
  | Status s =>
      if bool_decide (s = "approved") then
        {| paymentStatus := approved;
           isCheckingPayment := false;
           checkInterval := false;
           toasts := (toasts f ++ [PagamentoAprovado])%list;
           signupTimers := S (signupTimers f);
           requests := requests f;
           inFlight := inFlight f |}
      else if bool_decide (s = "rejected") || bool_decide (s = "cancelled") then
        {| paymentStatus := failed;
           isCheckingPayment := false;
           checkInterval := false;
           toasts := (toasts f ++ [PagamentoNaoAprovado])%list;
           signupTimers := signupTimers f;
           requests := requests f;
           inFlight := inFlight f |}
      else
        {| paymentStatus := paymentStatus f;
           isCheckingPayment := false;
           checkInterval := checkInterval f;
           toasts := toasts f;
           signupTimers := signupTimers f;
           requests := requests f;
           inFlight := inFlight f |}
  | Threw =>
      {| paymentStatus := paymentStatus f;
         isCheckingPayment := false;
         checkInterval := checkInterval f;
         toasts := toasts f;
         signupTimers := signupTimers f;
         requests := requests f;
         inFlight := inFlight f |}
  end.

(** The callback of the 30 minute [setTimeout].  Its test reads the
    constant [paymentStatus] of the render in which
    [startPaymentStatusCheck] was created, here [rendered], not the
    state of the component. *)
Definition stopChecking (rendered : PaymentStatus) (f : Form) : Form :=
  let f := clearInterval f in
  if bool_decide (rendered = processing) then
    {| paymentStatus := failed;
       isCheckingPayment := isCheckingPayment f;
       checkInterval := checkInterval f;
       toasts := (toasts f ++ [TempoEsgotado])%list;
       signupTimers := signupTimers f;
       requests := requests f;
       inFlight := inFlight f |}
  else f.

(** [createPixPayment] when the charge is created:
    [setPaymentStatus('processing')], then [startPaymentStatusCheck]
    arms both timers. *)
Definition startPayment (f : Form) : Form := {|
  paymentStatus := processing;
  isCheckingPayment := isCheckingPayment f;
  checkInterval := true;
  toasts := toasts f;
  signupTimers := signupTimers f;
  requests := requests f;
  inFlight := inFlight f
|}.

(** What the event loop runs: a callback of the interval timer, the
    continuation of the callback whose request [k] has been answered, or
    the callback of the timeout. *)
Inductive Event : Type :=
| Tick
| Answer (k : nat)
| Timeout.

#[global] Instance Event_eq_dec : EqDecision Event.
Proof. solve_decision. Defined.

(** One event, [gateway k] being what the request [k] gives.  A cleared
    interval runs no callback; a request that was sent is answered whether
    or not the interval has been cleared since; there is no answer without
    a request. *)
Definition handle (rendered : PaymentStatus) (gateway : nat → Check) (f : Form)
    (e : Event) : Form :=
  match e with
  | Tick => if checkInterval f then sendRequest f else f
  | Answer k =>
      if bool_decide (k ∈ inFlight f)
      then checkPaymentStatus (gateway k) (answered k f)
      else f
  | Timeout => stopChecking rendered f
  end.

(** The polling that [createPixPayment] starts on the form [f], under a
    schedule: the events in the order in which the event loop runs them.
    The order is not fixed by the code: a request may be answered after
    later callbacks, after the interval has been cleared and after the
    timeout. *)
Definition run (rendered : PaymentStatus) (gateway : nat → Check)
    (schedule : list Event) (f : Form) : Form :=
  foldl (handle rendered gateway) (startPayment f) schedule.

(** The form when the payment step is entered. *)
Definition initialForm : Form := {|
  paymentStatus := pending;
  isCheckingPayment := false;
  checkInterval := false;
  toasts := [];
  signupTimers := 0;
  requests := 0;
  inFlight := []
|}.

(** The button [Tentar Novamente] is rendered in the ['failed'] block
    only. *)
Definition retryShown (f : Form) : bool :=
  bool_decide (paymentStatus f = failed).

End MerchantSignupForm.

(** ** Conditions on rows and tables *)

(** The access window of a row is ordered: an end date that is present is
    not before the start date. *)
Definition windowOrdered (m : Merchant) : Prop :=
  ∀ s e : Time, accessStartDate m = Some s → accessEndDate m = Some e → s ≤ e.

Definition allOrdered (st : Store) : Prop :=
  ∀ (i : string) (m : Merchant), st !! i = Some m → windowOrdered m.

(** The rows on which a renewal keeps the window ordered: the stored cycle
    length is not negative, and a row without an end date has no start date
    after [now]. *)
Definition renewable (now : Time) (m : Merchant) : Prop :=
  (∀ d : Z, accessDurationDays m = Some d → 0 ≤ d) ∧
  (accessEndDate m = None → ∀ s : Time, accessStartDate m = Some s → s ≤ now).

(** The merchants that the expiry sweep is to demote: active, with an end
    date that is not after [now]. *)
Definition expiredActive (now : Time) (m : Merchant) : Prop :=
  status m = "active" ∧ ∃ e : Time, accessEndDate m = Some e ∧ e ≤ now.

#[global] Instance expiredActive_dec (now : Time) (m : Merchant) :
  Decision (expiredActive now m).
Proof.
  unfold expiredActive. destruct (accessEndDate m) as [e|].
  - destruct (decide (status m = "active" ∧ e ≤ now)) as [H|H].
    + left. destruct H. eauto.
    + right. intros [? (e' & [= <-] & ?)]. by apply H.
  - right. by intros [_ (e & ? & _)].
Defined.

(** Two rows of a merchant that differ in [status] and [updatedAt] at
    most. *)
Definition sameButStatus (m m' : Merchant) : Prop :=
  accessEndDate m' = accessEndDate m ∧
  paymentStatus m' = paymentStatus m ∧
  accessStartDate m' = accessStartDate m ∧
  accessDurationDays m' = accessDurationDays m ∧
  monthlyFee m' = monthlyFee m ∧
  lastPaymentDate m' = lastPaymentDate m ∧
  nextPaymentDue m' = nextPaymentDue m ∧
  planStatus m' = planStatus m ∧
  profile m' = profile m.

(** The row of an employee after [syncEmployeeHoursWithMerchant] has
    handled it at the clock reading [t]. *)
Definition syncedEmployee (merchant : Merchant) (t : Time) (e : Employees.Employee)
  : Employees.Employee :=
  if Employees.hasKeys (StorageMethods.hoursUpdates merchant e)
  then Employees.merge e (StorageMethods.hoursUpdates merchant e) t
  else e.

(** The employee [e'] has the columns of [e], the hours and [updatedAt]
    apart. *)
Definition sameButHours (e e' : Employees.Employee) : Prop :=
  Employees.merchantId e' = Employees.merchantId e ∧
  Employees.name e' = Employees.name e ∧
  Employees.email e' = Employees.email e ∧
  Employees.password e' = Employees.password e ∧
  Employees.phone e' = Employees.phone e ∧
  Employees.role e' = Employees.role e ∧
  Employees.specialties e' = Employees.specialties e ∧
  Employees.breakStartTime e' = Employees.breakStartTime e ∧
  Employees.breakEndTime e' = Employees.breakEndTime e ∧
  Employees.paymentType e' = Employees.paymentType e ∧
  Employees.paymentValue e' = Employees.paymentValue e ∧
  Employees.extendedEndTime e' = Employees.extendedEndTime e ∧
  Employees.overtimeHours e' = Employees.overtimeHours e ∧
  Employees.lastOvertimeDate e' = Employees.lastOvertimeDate e ∧
  Employees.isActive e' = Employees.isActive e ∧
  Employees.createdAt e' = Employees.createdAt e.

(** The hours of the employee [e'] are those of the merchant, where the
    merchant has some, and those of [e] otherwise. *)
Definition hoursFollow (merchant : Merchant) (e e' : Employees.Employee) : Prop :=
  Employees.startTime e' =
    (if truthy (startTime (profile merchant))
     then startTime (profile merchant) else Employees.startTime e) ∧
  Employees.endTime e' =
    (if truthy (endTime (profile merchant))
     then endTime (profile merchant) else Employees.endTime e) ∧
  Employees.workDays e' =
    (if truthy (workDays (profile merchant))
     then workDays (profile merchant) else Employees.workDays e).

(** The answers of the gateway that end the polling. *)
Definition terminal (r : MerchantSignupForm.Check) : Prop :=
  r = MerchantSignupForm.Status "approved" ∨
  r = MerchantSignupForm.Status "rejected" ∨
  r = MerchantSignupForm.Status "cancelled".

(** The gateway that answers ['pending'] where [gateway] fails. *)
Definition errorsAsPending (gateway : nat → MerchantSignupForm.Check)
  : nat → MerchantSignupForm.Check :=
  λ k, match gateway k with
       | MerchantSignupForm.Threw => MerchantSignupForm.Status "pending"
       | r => r
       end.

(** The number of callbacks of the interval timer in a schedule. *)
Definition ticks (schedule : list MerchantSignupForm.Event) : nat :=
  length (filter (λ e, e = MerchantSignupForm.Tick) schedule).

(** A gateway that approves the charge at the check [k]. *)
Definition approvesAt (k : nat) : nat → MerchantSignupForm.Check :=
  λ j, if bool_decide (j = k)
       then MerchantSignupForm.Status "approved"
       else if bool_decide (j = 1%nat)
            then MerchantSignupForm.Threw
            else MerchantSignupForm.Status "pending".

(** ** Sample data *)

Definition salon : Profile := {|
  name := "Studio Bela";
  ownerName := "Ana";
  email := "ana@example.com";
  password := "$2b$10$hash";
  phone := "11999990000";
  address := "Rua A, 10";
  logoUrl := None;
  isOpen := true;
  workDays := "[1,2,3,4,5,6]";
  startTime := "09:00";
  endTime := "18:00";
  breakStartTime := Some "12:00";
  breakEndTime := Some "13:00";
  planValidity := None;
  noShowFeeEnabled := false;
  noShowFeeAmount := Some 0;
  lateFeeEnabled := false;
  lateFeeAmount := Some 0;
  lateToleranceMinutes := Some 15;
  cancellationPolicyHours := Some 24;
  cancellationFeeEnabled := false;
  cancellationFeeAmount := Some 0;
  createdAt := 0
|}.

(** The instant [n] days after the epoch. *)
Definition day (n : Z) : Time := n * msPerDay.

(** A merchant as [createMerchant] leaves it: pending, no access window. *)
Definition newMerchant : Merchant := {|
  status := "pending";
  accessStartDate := None;
  accessEndDate := None;
  accessDurationDays := Some 30;
  lastPaymentDate := None;
  nextPaymentDue := None;
  monthlyFee := Some 5000;
  paymentStatus := "pending";
  planStatus := "free";
  updatedAt := 0;
  profile := salon
|}.

(** An active merchant with the window [[day s, day e]] and the cycle
    length [d]. *)
Definition activeMerchant (s e : Z) (d : option Z) : Merchant := {|
  status := "active";
  accessStartDate := Some (day s);
  accessEndDate := Some (day e);
  accessDurationDays := d;
  lastPaymentDate := Some (day s);
  nextPaymentDue := None;
  monthlyFee := Some 5000;
  paymentStatus := "paid";
  planStatus := "vip";
  updatedAt := day s;
  profile := salon
|}.

(** A merchant whose window is over and who is in [payment_pending]. *)
Definition demotedMerchant (s e : Z) (d : option Z) : Merchant := {|
  status := "payment_pending";
  accessStartDate := Some (day s);
  accessEndDate := Some (day e);
  accessDurationDays := d;
  lastPaymentDate := Some (day s);
  nextPaymentDue := None;
  monthlyFee := Some 5000;
  paymentStatus := "paid";
  planStatus := "vip";
  updatedAt := day e;
  profile := salon
|}.

(** An employee of the merchant [mid] who starts at [start]. *)
Definition stylist (mid start : string) : Employees.Employee := {|
  Employees.merchantId := mid;
  Employees.name := "Bia";
  Employees.email := "bia@example.com";
  Employees.password := "$2b$10$old";
  Employees.phone := "11988880000";
  Employees.role := "employee";
  Employees.specialties := None;
  Employees.workDays := "[1,2,3,4,5,6]";
  Employees.startTime := start;
  Employees.endTime := "18:00";
  Employees.breakStartTime := Some "12:00";
  Employees.breakEndTime := Some "13:00";
  Employees.paymentType := "monthly";
  Employees.paymentValue := 0;
  Employees.extendedEndTime := None;
  Employees.overtimeHours := Some 0;
  Employees.lastOvertimeDate := None;
  Employees.isActive := true;
  Employees.createdAt := 0;
  Employees.updatedAt := 0
|}.

(** An employee of each of two merchants. *)
Definition staff : EmployeeStore :=
  {[ "e1" := stylist "m1" "10:00"; "e2" := stylist "m2" "10:00" ]}.


(** A patch of a merchant with the keys [startTime] and [planStatus]. *)
Definition startTimePatch (start plan : string) : MerchantPatch := {|
  patch_access :=
    {| upd_status := None;
       upd_accessStartDate := None;
       upd_accessEndDate := None;
       upd_accessDurationDays := None;
       upd_lastPaymentDate := None;
       upd_nextPaymentDue := None;
       upd_monthlyFee := None;
       upd_paymentStatus := None;
       upd_planStatus := Some plan;
       upd_updatedAt := None |};
  patch_name := None;
  patch_ownerName := None;
  patch_email := None;
  patch_password := None;
  patch_phone := None;
  patch_address := None;
  patch_logoUrl := None;
  patch_isOpen := None;
  patch_workDays := None;
  patch_startTime := Some start;
  patch_endTime := None;
  patch_breakStartTime := None;
  patch_breakEndTime := None;
  patch_planValidity := None;
  patch_noShowFeeEnabled := None;
  patch_noShowFeeAmount := None;
  patch_lateFeeEnabled := None;
  patch_lateFeeAmount := None;
  patch_lateToleranceMinutes := None;
  patch_cancellationPolicyHours := None;
  patch_cancellationFeeEnabled := None;
  patch_cancellationFeeAmount := None
|}.

(** A hash for the examples. *)
Definition sampleHash (p : string) : string := "$2b$10$" ++ p.

(** A clock for the iterations of the sweep that always reads day [n]. *)
Definition frozen (n : Z) : nat → Time := λ _, day n.

(** A table with a trial merchant whose window ends on day 10 and a VIP
    merchant whose window ends on day 30. *)
Definition twoMerchants : Store :=
  {[ "m1" := activeMerchant 0 10 (Some 10); "m2" := activeMerchant 0 30 (Some 30) ]}.

(** Admin settings that assign [accessEndDate] only. *)
Definition endDateOnly (e : Time) : Updates := {|
  upd_status := None;
  upd_accessStartDate := None;
  upd_accessEndDate := Some (Some e);
  upd_accessDurationDays := None;
  upd_lastPaymentDate := None;
  upd_nextPaymentDue := None;
  upd_monthlyFee := None;
  upd_paymentStatus := None;
  upd_planStatus := None;
  upd_updatedAt := None
|}.

(** Admin settings that assign [monthlyFee] only. *)
Definition feeOnly (fee : Z) : Updates := {|
  upd_status := None;
  upd_accessStartDate := None;
  upd_accessEndDate := None;
  upd_accessDurationDays := None;
  upd_lastPaymentDate := None;
  upd_nextPaymentDue := None;
  upd_monthlyFee := Some (Some fee);
  upd_paymentStatus := None;
  upd_planStatus := None;
  upd_updatedAt := None
|}.

(** A merchant with a start date and no end date. *)
Definition startOnly (s : Z) : Merchant := {|
  status := "pending";
  accessStartDate := Some (day s);
  accessEndDate := None;
  accessDurationDays := Some 30;
  lastPaymentDate := None;
  nextPaymentDue := None;
  monthlyFee := Some 5000;
  paymentStatus := "pending";
  planStatus := "free";
  updatedAt := 0;
  profile := salon
|}.

(** A gateway that never leaves ['pending']. *)
Definition alwaysPending : nat → MerchantSignupForm.Check :=
  λ _, MerchantSignupForm.Status "pending".

(** A table with the one merchant ["m1"]. *)
Definition oneMerchant (m : Merchant) : Store := {["m1" := m]}.

(** ** Dates *)

Lemma addDays_ms (t : Time) (n : Z) : addDays t n = t + n * msPerDay.
Proof.
  unfold addDays, MakeDate, Day, TimeWithinDay.
  pose proof (Z.div_mod t msPerDay) as E.
  assert (msPerDay ≠ 0) as Hne by (unfold msPerDay; lia).
  specialize (E Hne). lia.
Qed.

Lemma addDays_mono (t : Time) (n : Z) : 0 ≤ n → t ≤ addDays t n.
Proof. rewrite addDays_ms. unfold msPerDay. lia. Qed.

Lemma addDays_day (a n : Z) : addDays (day a) n = day (a + n).
Proof. rewrite addDays_ms. unfold day. lia. Qed.

(** ** The table primitives *)

Lemma update_by_id_lookup (u : Updates) (id i : string) (st : Store) :
  update_by_id u id st !! i =
  if decide (id = i) then set u <$> st !! id else st !! i.
Proof. unfold update_by_id. apply lookup_alter. Qed.

Lemma update_by_id_absent (u : Updates) (id : string) (st : Store) :
  st !! id = None → update_by_id u id st = st.
Proof.
  intros Hid. unfold update_by_id. rewrite alter_alt. by rewrite Hid.
Qed.

Lemma update_by_id_present (u : Updates) (id : string) (st : Store) (m : Merchant) :
  st !! id = Some m → update_by_id u id st = <[id := set u m]> st.
Proof. intros Hid. unfold update_by_id. by apply alter_alt_Some. Qed.

Lemma update_by_id_returning_absent (u : Updates) (id : string) (st : Store) :
  st !! id = None → update_by_id_returning u id st = (st, []).
Proof.
  intros Hid. unfold update_by_id_returning, select_by_id.
  rewrite update_by_id_absent by done. by rewrite Hid.
Qed.

Lemma update_by_id_returning_present (u : Updates) (id : string) (st : Store)
    (m : Merchant) :
  st !! id = Some m →
  update_by_id_returning u id st = (<[id := set u m]> st, [set u m]).
Proof.
  intros Hid. unfold update_by_id_returning, select_by_id.
  rewrite (update_by_id_present _ _ _ _ Hid). by rewrite lookup_insert_eq.
Qed.

Lemma update_by_id_dom (u : Updates) (id : string) (st : Store) :
  dom (update_by_id u id st) = dom st.
Proof.
  apply set_eq. intros i. rewrite !elem_of_dom, update_by_id_lookup.
  case_decide as Hi; [subst i | done].
  destruct (st !! id); simpl; split; intros [? ?]; eauto; done.
Qed.

(** ** Granting access *)

Import PostgreSQLStorage.

Lemma grantMerchantAccess_present (id : string) (d : Z) (fee : option Z)
    (now : Time) (st : Store) (m : Merchant) :
  st !! id = Some m →
  grantMerchantAccess id d fee now st =
  (<[id := set (grantUpdates d fee now) m]> st, Some (set (grantUpdates d fee now) m)).
Proof.
  intros Hid. unfold grantMerchantAccess.
  by rewrite (update_by_id_returning_present _ _ _ _ Hid).
Qed.

Lemma grantMerchantAccess_absent (id : string) (d : Z) (fee : option Z)
    (now : Time) (st : Store) :
  st !! id = None → grantMerchantAccess id d fee now st = (st, None).
Proof.
  intros Hid. unfold grantMerchantAccess.
  by rewrite (update_by_id_returning_absent _ _ _ Hid).
Qed.

(** The columns of a granted row. *)
Lemma grantUpdates_columns (d : Z) (fee : option Z) (now : Time) (m : Merchant) :
  let m' := set (grantUpdates d fee now) m in
  status m' = "active" ∧
  paymentStatus m' = "paid" ∧
  accessStartDate m' = Some now ∧
  accessEndDate m' = Some (now + d * msPerDay) ∧
  accessDurationDays m' = Some d ∧
  lastPaymentDate m' = Some now ∧
  nextPaymentDue m' = Some (now + d * msPerDay + d * msPerDay) ∧
  monthlyFee m' = match fee with Some f => Some f | None => monthlyFee m end ∧
  planStatus m' = planStatus m ∧
  profile m' = profile m.
Proof.
  simpl. rewrite !addDays_ms. repeat split; by destruct fee.
Qed.

(** C2. For an existing merchant [grantMerchantAccess] stores and returns the
    row with [status = active], [paymentStatus = paid],
    [accessStartDate = now], [accessEndDate = now + durationDays] days,
    [accessDurationDays = durationDays], [lastPaymentDate = now] and
    [nextPaymentDue = accessEndDate + durationDays] days; [monthlyFee] takes
    the argument when one is given and keeps its value otherwise. *)
Theorem grantMerchantAccess_sets_window (id : string) (durationDays : Z)
    (fee : option Z) (now : Time) (st : Store) (m : Merchant) :
  st !! id = Some m →
  ∃ m' : Merchant,
    grantMerchantAccess id durationDays fee now st = (<[id := m']> st, Some m') ∧
    status m' = "active" ∧
    paymentStatus m' = "paid" ∧
    accessStartDate m' = Some now ∧
    accessEndDate m' = Some (now + durationDays * msPerDay) ∧
    accessDurationDays m' = Some durationDays ∧
    lastPaymentDate m' = Some now ∧
    nextPaymentDue m' = Some (now + durationDays * msPerDay + durationDays * msPerDay) ∧
    monthlyFee m' = match fee with Some f => Some f | None => monthlyFee m end.
Proof.
  intros Hid. exists (set (grantUpdates durationDays fee now) m).
  split; [by apply grantMerchantAccess_present |].
  pose proof (grantUpdates_columns durationDays fee now m) as H.
  simpl in H. simpl. tauto.
Qed.

Lemma grantMerchantAccess_sets_window_witness :
  ∃ m' : Merchant,
    grantMerchantAccess "m1" 10 None (day 0) {["m1" := newMerchant]} =
      (<["m1" := m']> {["m1" := newMerchant]}, Some m') ∧
    status m' = "active" ∧
    paymentStatus m' = "paid" ∧
    accessStartDate m' = Some (day 0) ∧
    accessEndDate m' = Some (day 0 + 10 * msPerDay) ∧
    accessDurationDays m' = Some 10 ∧
    lastPaymentDate m' = Some (day 0) ∧
    nextPaymentDue m' = Some (day 0 + 10 * msPerDay + 10 * msPerDay) ∧
    monthlyFee m' = monthlyFee newMerchant.
Proof.
  apply (grantMerchantAccess_sets_window "m1" 10 None (day 0)
           {["m1" := newMerchant]} newMerchant).
  reflexivity.
Defined.

(** C6. On an id that the table does not have, [grantMerchantAccess] returns
    [null] and leaves the table as it is; on an id that it has, the row is
    replaced by the row with every granted column written.  No row is added,
    and every row of the new table is either the old row or the wholly
    granted one. *)
Theorem grantMerchantAccess_absent_or_whole (id : string) (durationDays : Z)
    (fee : option Z) (now : Time) (st : Store) :
  let st' := (grantMerchantAccess id durationDays fee now st).1 in
  let r := (grantMerchantAccess id durationDays fee now st).2 in
  match st !! id with
  | None => st' = st ∧ r = None
  | Some m =>
      ∃ m', st' = <[id := m']> st ∧ r = Some m' ∧
            status m' = "active" ∧
            paymentStatus m' = "paid" ∧
            accessStartDate m' = Some now ∧
            accessEndDate m' = Some (now + durationDays * msPerDay) ∧
            accessDurationDays m' = Some durationDays ∧
            lastPaymentDate m' = Some now ∧
            nextPaymentDue m' =
              Some (now + durationDays * msPerDay + durationDays * msPerDay)
  end ∧
  dom st' = dom st ∧
  ∀ i, st' !! i = st !! i ∨
       (i = id ∧ ∃ m, st !! id = Some m ∧
                      st' !! i = Some (set (grantUpdates durationDays fee now) m)).
Proof.
  cbv zeta. destruct (st !! id) as [m|] eqn:Hid.
  - rewrite (grantMerchantAccess_present _ _ _ _ _ _ Hid). simpl.
    pose proof (grantUpdates_columns durationDays fee now m) as H. simpl in H.
    split; [| split].
    + exists (set (grantUpdates durationDays fee now) m). simpl. tauto.
    + rewrite dom_insert_L. apply subseteq_union_1_L, singleton_subseteq_l.
      by apply elem_of_dom_2 in Hid.
    + intros i. destruct (decide (i = id)) as [->|Hne].
      * right. split; [done |]. exists m. by rewrite lookup_insert_eq.
      * left. by rewrite lookup_insert_ne.
  - rewrite (grantMerchantAccess_absent _ _ _ _ _ Hid). simpl.
    split; [done |]. split; [done |]. intros i. by left.
Qed.

(** ** Renewing access *)

Lemma renewMerchantAccess_present (id : string) (now : Time) (st : Store)
    (m : Merchant) :
  st !! id = Some m →
  renewMerchantAccess id now st =
  (<[id := set (renewUpdates m now) m]> st, Some (set (renewUpdates m now) m)).
Proof.
  intros Hid. unfold renewMerchantAccess, select_by_id. rewrite Hid.
  cbn -[update_by_id_returning].
  by rewrite (update_by_id_returning_present _ _ _ _ Hid).
Qed.

Lemma renewMerchantAccess_absent (id : string) (now : Time) (st : Store) :
  st !! id = None → renewMerchantAccess id now st = (st, None).
Proof.
  intros Hid. unfold renewMerchantAccess, select_by_id. by rewrite Hid.
Qed.

Lemma renewBaseDate_max (m : Merchant) (now : Time) :
  renewBaseDate m now =
  match accessEndDate m with Some e => Z.max e now | None => now end.
Proof.
  unfold renewBaseDate, or_date. destruct (accessEndDate m) as [e|].
  - destruct (Z.gtb_spec e now); lia.
  - destruct (Z.gtb_spec now now); lia.
Qed.

Lemma renewDurationDays_cases (m : Merchant) :
  renewDurationDays m =
  match accessDurationDays m with Some 0 | None => 30 | Some d => d end.
Proof.
  unfold renewDurationDays, or_number.
  by destruct (accessDurationDays m) as [[| |]|].
Qed.

Lemma renewBaseDate_ge (m : Merchant) (now : Time) :
  now ≤ renewBaseDate m now ∧
  ∀ e, accessEndDate m = Some e → e ≤ renewBaseDate m now.
Proof.
  rewrite renewBaseDate_max. destruct (accessEndDate m) as [e|].
  - split; [lia |]. intros e' [= <-]. lia.
  - split; [lia | done].
Qed.

(** C1, as the code has it. For an existing merchant [renewMerchantAccess]
    takes [baseDate = max(accessEndDate, now)], [now] when there is no end
    date, and the cycle length [accessDurationDays], 30 when that is absent
    or zero.  It stores and returns the row with
    [accessEndDate = baseDate + d] days, [nextPaymentDue] one more cycle
    later, [status = active], [paymentStatus = paid],
    [lastPaymentDate = now] and the old [accessStartDate], [now] when there
    was none.  When the cycle length is not negative, the new end date is not
    before the old one. *)
Theorem renewMerchantAccess_extends (id : string) (now : Time) (st : Store)
    (m : Merchant) :
  st !! id = Some m →
  let baseDate :=
    match accessEndDate m with Some e => Z.max e now | None => now end in
  let d := match accessDurationDays m with Some 0 | None => 30 | Some d => d end in
  ∃ m' : Merchant,
    renewMerchantAccess id now st = (<[id := m']> st, Some m') ∧
    accessEndDate m' = Some (baseDate + d * msPerDay) ∧
    nextPaymentDue m' = Some (baseDate + d * msPerDay + d * msPerDay) ∧
    status m' = "active" ∧
    paymentStatus m' = "paid" ∧
    lastPaymentDate m' = Some now ∧
    accessStartDate m' =
      Some (match accessStartDate m with Some s => s | None => now end) ∧
    (0 ≤ d → ∀ e, accessEndDate m = Some e → e ≤ baseDate + d * msPerDay).
Proof.
  intros Hid baseDate d. exists (set (renewUpdates m now) m).
  split; [by apply renewMerchantAccess_present |].
  assert (renewBaseDate m now = baseDate) as Hb by apply renewBaseDate_max.
  assert (renewDurationDays m = d) as Hd by apply renewDurationDays_cases.
  simpl. rewrite !addDays_ms, Hb, Hd.
  repeat split.
  intros Hd0 e He. subst baseDate. rewrite He. unfold msPerDay. lia.
Qed.

Lemma renewMerchantAccess_extends_witness :
  ∃ m' : Merchant,
    (renewMerchantAccess "m1" (day 20) (oneMerchant (activeMerchant 0 30 (Some 30)))).2
      = Some m' ∧
    accessEndDate m' = Some (day 60) ∧
    accessStartDate m' = Some (day 0) ∧
    day 30 ≤ day 60.
Proof.
  destruct (renewMerchantAccess_extends "m1" (day 20)
              (oneMerchant (activeMerchant 0 30 (Some 30)))
              (activeMerchant 0 30 (Some 30)) eq_refl)
    as (m' & Hr & He & _ & _ & _ & _ & Hs & Hmono).
  exists m'. split; [by rewrite Hr |]. split; [exact He |]. split; [exact Hs |].
  apply (Hmono ltac:(simpl; lia) (day 30) eq_refl).
Defined.

(** C1, as stated, fails on two rows.  With [accessDurationDays = 0] the new
    end date is 30 days after the base date, not 0 days after it; with a
    negative [accessDurationDays] the new end date is before the old one. *)
Lemma renewMerchantAccess_zero_or_negative_cycle :
  (∃ m', (renewMerchantAccess "m1" (day 20)
            (oneMerchant (activeMerchant 0 30 (Some 0)))).2 = Some m' ∧
         accessEndDate m' = Some (day 60) ∧
         accessEndDate m' ≠ Some (Z.max (day 30) (day 20) + 0 * msPerDay)) ∧
  (∃ m' e', (renewMerchantAccess "m1" (day 20)
               (oneMerchant (activeMerchant 0 30 (Some (-5))))).2 = Some m' ∧
            accessEndDate m' = Some e' ∧ e' < day 30).
Proof.
  split.
  - eexists. split; [reflexivity |]. split; [reflexivity |]. by vm_compute.
  - eexists _, _. split; [reflexivity |]. split; [reflexivity |]. by vm_compute.
Qed.

(** ** Suspending access *)

Lemma suspendMerchantAccess_present (id : string) (now : Time) (st : Store)
    (m : Merchant) :
  st !! id = Some m →
  suspendMerchantAccess id now st =
  (<[id := set (suspendUpdates now) m]> st, Some (set (suspendUpdates now) m)).
Proof.
  intros Hid. unfold suspendMerchantAccess, getMerchant, select_by_id.
  rewrite (update_by_id_present _ _ _ _ Hid). by rewrite lookup_insert_eq.
Qed.

Lemma suspendMerchantAccess_absent (id : string) (now : Time) (st : Store) :
  st !! id = None → suspendMerchantAccess id now st = (st, None).
Proof.
  intros Hid. unfold suspendMerchantAccess, getMerchant, select_by_id.
  rewrite (update_by_id_absent _ _ _ Hid). by rewrite Hid.
Qed.

(** C8, as the code has it. For an existing merchant [suspendMerchantAccess]
    stores and returns the row with [status = payment_pending] and
    [updatedAt = now]; every other column, [accessEndDate] and
    [paymentStatus] among them, keeps its value, and a later renewal computes
    from the suspended row the dates that it computes from the old one. *)
Theorem suspendMerchantAccess_keeps_window (id : string) (now : Time) (st : Store)
    (m : Merchant) :
  st !! id = Some m →
  ∃ m' : Merchant,
    suspendMerchantAccess id now st = (<[id := m']> st, Some m') ∧
    status m' = "payment_pending" ∧
    updatedAt m' = now ∧
    accessStartDate m' = accessStartDate m ∧
    accessEndDate m' = accessEndDate m ∧
    accessDurationDays m' = accessDurationDays m ∧
    lastPaymentDate m' = lastPaymentDate m ∧
    nextPaymentDue m' = nextPaymentDue m ∧
    monthlyFee m' = monthlyFee m ∧
    paymentStatus m' = paymentStatus m ∧
    planStatus m' = planStatus m ∧
    profile m' = profile m ∧
    ∀ t : Time, renewUpdates m' t = renewUpdates m t.
Proof.
  intros Hid. exists (set (suspendUpdates now) m).
  split; [by apply suspendMerchantAccess_present |].
  simpl. repeat split.
Qed.

Lemma suspendMerchantAccess_keeps_window_witness :
  ∃ m' : Merchant,
    (suspendMerchantAccess "m1" (day 20)
       (oneMerchant (activeMerchant 0 30 (Some 30)))).2 = Some m' ∧
    status m' = "payment_pending" ∧
    accessEndDate m' = Some (day 30) ∧
    paymentStatus m' = "paid".
Proof.
  destruct (suspendMerchantAccess_keeps_window "m1" (day 20)
              (oneMerchant (activeMerchant 0 30 (Some 30)))
              (activeMerchant 0 30 (Some 30)) eq_refl)
    as (m' & Hr & Hs & _ & _ & He & _ & _ & _ & _ & Hp & _).
  exists m'. split; [by rewrite Hr |]. split; [exact Hs |].
  split; [exact He | exact Hp].
Defined.

(** C8, as stated, fails on [updatedAt]: suspending on day 20 a merchant
    last written on day 0 changes that column. *)
Lemma suspendMerchantAccess_writes_updatedAt :
  ∃ m' : Merchant,
    (suspendMerchantAccess "m1" (day 20)
       (oneMerchant (activeMerchant 0 30 (Some 30)))).2 = Some m' ∧
    updatedAt m' = day 20 ∧
    updatedAt m' ≠ updatedAt (activeMerchant 0 30 (Some 30)).
Proof.
  eexists. split; [reflexivity |]. split; [reflexivity |]. by vm_compute.
Qed.

(** ** Live access *)

(** C4. The test behind the [activeAccess] counter holds exactly when
    [status] is [active] and the end date is absent or after [now]; a
    merchant whose end date is [now] does not pass it. *)
Theorem isActiveAccess_iff (now : Time) (m : Merchant) :
  (isActiveAccess now m = true ↔
   status m = "active" ∧
   (accessEndDate m = None ∨ ∃ e, accessEndDate m = Some e ∧ now < e)) ∧
  (accessEndDate m = Some now → isActiveAccess now m = false).
Proof.
  unfold isActiveAccess. split.
  - rewrite andb_true_iff, bool_decide_eq_true.
    destruct (accessEndDate m) as [e|].
    + rewrite Z.gtb_lt. split.
      * intros [Hs He]. split; [done |]. right. by exists e.
      * intros [Hs [He | (e' & [= <-] & He)]]; done.
    + split; [intros [Hs _]; split; [done | by left] | by intros [Hs _]].
  - intros ->. rewrite andb_false_iff. right. rewrite Z.gtb_ltb. apply Z.ltb_irrefl.
Qed.

Lemma isActiveAccess_iff_witness :
  isActiveAccess (day 30) (activeMerchant 0 30 (Some 30)) = false.
Proof.
  apply (isActiveAccess_iff (day 30) (activeMerchant 0 30 (Some 30))).
  reflexivity.
Defined.

(** ** The expiry sweep *)

(** The loop leaves the rows that are not in the list. *)
Lemma expire_loop_other (clock : nat → Time) (l : list Row) :
  ∀ (acc : Store * nat) (i : string),
    i ∉ l.*1 → (foldl (expireOne clock) acc l).1 !! i = acc.1 !! i.
Proof.
  induction l as [|r l IH]; intros acc i Hi; [done |].
  rewrite fmap_cons, not_elem_of_cons in Hi. destruct Hi as [Hne Hi].
  simpl. rewrite (IH _ _ Hi). simpl.
  rewrite update_by_id_lookup. by rewrite decide_False.
Qed.

(** The loop writes the rows that are in the list. *)
Lemma expire_loop_listed (clock : nat → Time) (l : list Row) :
  ∀ (acc : Store * nat) (i : string),
    i ∈ l.*1 →
    ∃ t, (foldl (expireOne clock) acc l).1 !! i = set (expiredUpdates t) <$> acc.1 !! i.
Proof.
  induction l as [|r l IH]; intros acc i Hi; [by apply elem_of_nil in Hi |].
  simpl. destruct (decide (i ∈ l.*1)) as [Hl|Hl].
  - destruct (IH (expireOne clock acc r) i Hl) as [t Ht].
    exists t. rewrite Ht. simpl. rewrite update_by_id_lookup.
    case_decide as Hr; [| done]. rewrite Hr.
    by destruct (acc.1 !! i).
  - rewrite fmap_cons, elem_of_cons in Hi. destruct Hi as [Hi | Hi]; [| done].
    exists (clock acc.2). rewrite (expire_loop_other _ _ _ _ Hl). simpl.
    rewrite update_by_id_lookup. rewrite decide_True by done. by rewrite Hi.
Qed.

(** Each row after the loop, from the row before it. *)
Lemma expireAll_rows (clock : nat → Time) (l : list Row) (st : Store) (i : string) :
  ∃ t, expireAll clock l st !! i =
       (if decide (i ∈ l.*1) then set (expiredUpdates t) else id) <$> st !! i.
Proof.
  unfold expireAll. destruct (decide (i ∈ l.*1)) as [Hi|Hi].
  - destruct (expire_loop_listed clock l (st, 0%nat) i Hi) as [t Ht]. by exists t.
  - exists 0. rewrite (expire_loop_other clock l (st, 0%nat) i Hi). simpl.
    by destruct (st !! i).
Qed.

(** The query of the sweep compares the end date with a string, and the
    encoding of a string raises: the method rejects, the loop is not
    reached and the table is as it was. *)
Lemma processExpiredAccess_raises (now : Time) (clock : nat → Time) (st : Store) :
  processExpiredAccess now clock st = (st, inl TypeError).
Proof. reflexivity. Qed.

(** C3, evaluated on the code. [processExpiredAccess] compares
    [accessEndDate], a timestamp column, with [now.toISOString()], a
    string, where the column takes a [Date]: the encoding of the parameter
    raises for every table and every time.  The method rejects with that
    error and returns no count; every merchant that is active with an end
    date not after [now] is still active afterwards, and a second run rejects
    in the same way. *)
Theorem processExpiredAccess_demotes_nobody (now now' : Time)
    (clock clock' : nat → Time) (st : Store) :
  let st' := (processExpiredAccess now clock st).1 in
  (processExpiredAccess now clock st).2 = inl TypeError ∧
  (∀ i m, st !! i = Some m → expiredActive now m →
          st' !! i = Some m ∧ status m = "active") ∧
  st' = st ∧
  processExpiredAccess now' clock' st' = (st', inl TypeError).
Proof.
  cbv zeta. rewrite processExpiredAccess_raises. cbn [fst snd].
  split; [done |]. split; [| split; [done |]].
  - intros i m Hi [Hs _]. done.
  - apply processExpiredAccess_raises.
Qed.

Lemma processExpiredAccess_demotes_nobody_witness :
  (processExpiredAccess (day 11) (frozen 11) twoMerchants).2 = inl TypeError ∧
  (processExpiredAccess (day 11) (frozen 11) twoMerchants).1 !! "m1"
    = Some (activeMerchant 0 10 (Some 10)) ∧
  status (activeMerchant 0 10 (Some 10)) = "active".
Proof.
  destruct (processExpiredAccess_demotes_nobody (day 11) (day 12) (frozen 11)
              (frozen 12) twoMerchants) as (Herror & Hexp & _).
  split; [exact Herror |].
  apply (Hexp "m1" (activeMerchant 0 10 (Some 10))); [reflexivity |].
  split; [reflexivity |]. exists (day 10). split; [reflexivity |].
  unfold day, msPerDay. lia.
Defined.

(** C7. The loop of the sweep writes [status] and [updatedAt] and nothing
    else: on each merchant of the rows it is run over, [status] becomes
    [payment_pending] and the access window, the cycle length,
    [paymentStatus] and the fee and payment columns keep their values; the
    rows of the other merchants are as they were.  The same columns are
    kept by the whole method on every row. *)
Theorem processExpiredAccess_frame (now : Time) (clock : nat → Time) (st : Store)
    (expiredMerchants : list Row) (i : string) (m : Merchant) :
  st !! i = Some m →
  (i ∈ expiredMerchants.*1 →
   ∃ m' : Merchant,
     expireAll clock expiredMerchants st !! i = Some m' ∧
     status m' = "payment_pending" ∧
     sameButStatus m m') ∧
  (i ∉ expiredMerchants.*1 → expireAll clock expiredMerchants st !! i = Some m) ∧
  (∀ m' : Merchant,
     (processExpiredAccess now clock st).1 !! i = Some m' → sameButStatus m m').
Proof.
  intros Hi. split; [| split].
  - intros Hin.
    destruct (expireAll_rows clock expiredMerchants st i) as [t Ht].
    rewrite decide_True, Hi in Ht by done.
    exists (set (expiredUpdates t) m). split; [done |]. split; [done |].
    unfold sameButStatus. simpl. repeat split.
  - intros Hout.
    destruct (expireAll_rows clock expiredMerchants st i) as [t Ht].
    by rewrite decide_False, Hi in Ht by done.
  - intros m'. unfold processExpiredAccess.
    destruct (selectExpired _ st) as [error | rows]; cbn [fst].
    + rewrite Hi. intros [= <-]. unfold sameButStatus. repeat split.
    + destruct (expireAll_rows clock rows st i) as [t Ht].
      rewrite Ht, Hi. destruct (decide (i ∈ rows.*1)); intros [= <-];
        unfold sameButStatus; simpl; repeat split.
Qed.

Lemma processExpiredAccess_frame_witness :
  ∃ m' : Merchant,
    expireAll (frozen 11) [("m1", activeMerchant 0 10 (Some 10))] twoMerchants
      !! "m1" = Some m' ∧
    status m' = "payment_pending" ∧
    accessEndDate m' = Some (day 10) ∧
    paymentStatus m' = "paid".
Proof.
  destruct (processExpiredAccess_frame (day 11) (frozen 11) twoMerchants
              [("m1", activeMerchant 0 10 (Some 10))] "m1"
              (activeMerchant 0 10 (Some 10)) eq_refl)
    as (Hloop & _ & _).
  destruct Hloop as (m' & Hr & Hs & He & Hp & _).
  - apply list_elem_of_fmap. exists ("m1", activeMerchant 0 10 (Some 10)).
    split; [reflexivity | by left].
  - exists m'. split; [exact Hr |]. split; [exact Hs |].
    split; [exact He | exact Hp].
Defined.

(** ** The two backends *)

(** C10, evaluated on the code. The backend chosen outside production
    returns 0 and leaves the table as it is, for every table and time.  The
    backend chosen in production rejects with the error of its query, for
    every table and time, and leaves the table as it is as well: it demotes
    no merchant, and its result differs from the result of the other backend
    also on the tables that hold no active merchant with an end date not
    after [now]. *)
Theorem processExpiredAccess_backends_differ (now : Time) (clock : nat → Time)
    (st : Store) :
  Storage.processExpiredAccess (Storage.storage false) now clock st
    = (st, inr 0%nat) ∧
  Storage.processExpiredAccess (Storage.storage true) now clock st
    = (st, inl TypeError) ∧
  Storage.processExpiredAccess (Storage.storage true) now clock st ≠
  Storage.processExpiredAccess (Storage.storage false) now clock st.
Proof.
  simpl. unfold SQLiteStorage.processExpiredAccess.
  rewrite processExpiredAccess_raises. split; [done |]. split; [done |].
  intros [=].
Qed.

(** ** The order of the access window *)

Lemma windowOrdered_set_no_dates (u : Updates) (m : Merchant) :
  upd_accessStartDate u = None → upd_accessEndDate u = None →
  windowOrdered m → windowOrdered (set u m).
Proof.
  intros Hs He Hm s e. simpl. rewrite Hs, He. simpl. apply Hm.
Qed.

Lemma allOrdered_insert (st : Store) (id : string) (m : Merchant) :
  allOrdered st → windowOrdered m → allOrdered (<[id := m]> st).
Proof.
  intros Hst Hm i m' Hi. destruct (decide (id = i)) as [-> | Hne].
  - rewrite lookup_insert_eq in Hi. by injection Hi as <-.
  - rewrite lookup_insert_ne in Hi by done. by apply (Hst i).
Qed.

Lemma allOrdered_update_no_dates (u : Updates) (id : string) (st : Store) :
  upd_accessStartDate u = None → upd_accessEndDate u = None →
  allOrdered st → allOrdered (update_by_id u id st).
Proof.
  intros Hs He Hst. destruct (st !! id) as [m|] eqn:Hid.
  - rewrite (update_by_id_present _ _ _ _ Hid).
    apply allOrdered_insert; [done |].
    apply windowOrdered_set_no_dates; [done | done |]. by apply (Hst id).
  - by rewrite (update_by_id_absent _ _ _ Hid).
Qed.

Lemma windowOrdered_grant (d : Z) (fee : option Z) (now : Time) (m : Merchant) :
  0 ≤ d → windowOrdered (set (grantUpdates d fee now) m).
Proof.
  intros Hd s e. simpl. intros [= <-] [= <-]. by apply addDays_mono.
Qed.

Lemma windowOrdered_renew (now : Time) (m : Merchant) :
  windowOrdered m → renewable now m →
  windowOrdered (set (renewUpdates m now) m).
Proof.
  intros Hm [Hd Hs] s e. simpl. intros [= <-] [= <-].
  assert (0 ≤ renewDurationDays m) as Hd0.
  { rewrite renewDurationDays_cases.
    destruct (accessDurationDays m) as [d|] eqn:Ed; [| lia].
    specialize (Hd d eq_refl). destruct d; lia. }
  etrans; [| by apply addDays_mono].
  destruct (renewBaseDate_ge m now) as [Hnow Hend].
  destruct (accessStartDate m) as [s|] eqn:Es; simpl; [| done].
  destruct (accessEndDate m) as [e|] eqn:Ee.
  - etrans; [by apply (Hm s e) | by apply Hend].
  - etrans; [by apply (Hs eq_refl s) | done].
Qed.

Lemma allOrdered_expireAll (clock : nat → Time) (l : list Row) (st : Store) :
  allOrdered st → allOrdered (expireAll clock l st).
Proof.
  intros Hst i m' Hi'.
  destruct (expireAll_rows clock l st i) as [t Ht]. rewrite Hi' in Ht.
  destruct (st !! i) as [m|] eqn:Hi; [| done]. injection Ht as ->.
  destruct (decide (i ∈ l.*1)); [| by apply (Hst i)].
  apply windowOrdered_set_no_dates; [done | done |]. by apply (Hst i).
Qed.

Lemma allOrdered_processExpiredAccess (now : Time) (clock : nat → Time) (st : Store) :
  allOrdered st → allOrdered (processExpiredAccess now clock st).1.
Proof.
  intros Hst. unfold processExpiredAccess.
  destruct (selectExpired _ st) as [error | rows]; cbn [fst]; [done |].
  by apply allOrdered_expireAll.
Qed.

(** C5, as the code has it. When every row of the table has an ordered
    window, so has every row after [grantMerchantAccess] with a positive
    [durationDays], after [suspendMerchantAccess], after the expiry sweep,
    after [renewMerchantAccess] on a merchant whose stored cycle length is
    not negative and who, lacking an end date, has no start date after
    [now], and after [updateMerchantAccessSettings] with settings that
    assign neither date. *)
Theorem windowOrdered_preserved (id : string) (now : Time) (st : Store) :
  allOrdered st →
  (∀ d fee, 0 < d → allOrdered (grantMerchantAccess id d fee now st).1) ∧
  allOrdered (suspendMerchantAccess id now st).1 ∧
  (∀ clock, allOrdered (processExpiredAccess now clock st).1) ∧
  ((∀ m, st !! id = Some m → renewable now m) →
   allOrdered (renewMerchantAccess id now st).1) ∧
  (∀ settings,
     upd_accessStartDate settings = None → upd_accessEndDate settings = None →
     allOrdered (updateMerchantAccessSettings id settings now st).1).
Proof.
  intros Hst. split; [| split; [| split; [| split]]].
  - intros d fee Hd. destruct (st !! id) as [m|] eqn:Hid.
    + rewrite (grantMerchantAccess_present _ _ _ _ _ _ Hid).
      apply allOrdered_insert; [done |]. apply windowOrdered_grant. lia.
    + by rewrite (grantMerchantAccess_absent _ _ _ _ _ Hid).
  - by apply allOrdered_update_no_dates.
  - intros clock. by apply allOrdered_processExpiredAccess.
  - intros Hren. destruct (st !! id) as [m|] eqn:Hid.
    + rewrite (renewMerchantAccess_present _ _ _ _ Hid).
      apply allOrdered_insert; [done |].
      apply windowOrdered_renew; [by apply (Hst id) | by apply Hren].
    + by rewrite (renewMerchantAccess_absent _ _ _ Hid).
  - intros settings Hs He. by apply allOrdered_update_no_dates.
Qed.

Lemma allOrdered_oneMerchant (s e : Z) (d : option Z) :
  s ≤ e → allOrdered (oneMerchant (activeMerchant s e d)).
Proof.
  intros Hse i m Hi. unfold oneMerchant in Hi.
  apply lookup_singleton_Some in Hi as [_ <-].
  intros s' e' [= <-] [= <-]. unfold day, msPerDay. lia.
Qed.

Lemma windowOrdered_preserved_witness :
  allOrdered (grantMerchantAccess "m1" 10 None (day 40)
               (oneMerchant (activeMerchant 0 30 (Some 30)))).1 ∧
  allOrdered (renewMerchantAccess "m1" (day 40)
               (oneMerchant (activeMerchant 0 30 (Some 30)))).1 ∧
  allOrdered (updateMerchantAccessSettings "m1" (feeOnly 7000) (day 40)
               (oneMerchant (activeMerchant 0 30 (Some 30)))).1.
Proof.
  destruct (windowOrdered_preserved "m1" (day 40)
              (oneMerchant (activeMerchant 0 30 (Some 30)))
              (allOrdered_oneMerchant 0 30 (Some 30) ltac:(lia)))
    as (Hgrant & _ & _ & Hrenew & Hsettings).
  split; [| split].
  - apply Hgrant. lia.
  - apply Hrenew. intros m Hm. unfold oneMerchant in Hm.
    apply lookup_singleton_Some in Hm as [_ <-].
    split.
    + intros d [= <-]. lia.
    + intros He. discriminate He.
  - apply Hsettings; reflexivity.
Defined.

(** C5, as stated, fails on three rows with an ordered window: an admin
    update that assigns an end date before the start date, a renewal with a
    negative cycle length, and a renewal of a merchant that has a start date
    in the future and no end date. *)
Lemma windowOrdered_broken :
  (windowOrdered (activeMerchant 10 30 (Some 30)) ∧
   ∃ m', (updateMerchantAccessSettings "m1" (endDateOnly (day 5)) (day 20)
            (oneMerchant (activeMerchant 10 30 (Some 30)))).2 = Some m' ∧
         ¬ windowOrdered m') ∧
  (windowOrdered (activeMerchant 28 30 (Some (-5))) ∧
   ∃ m', (renewMerchantAccess "m1" (day 29)
            (oneMerchant (activeMerchant 28 30 (Some (-5))))).2 = Some m' ∧
         ¬ windowOrdered m') ∧
  (windowOrdered (startOnly 50) ∧
   ∃ m', (renewMerchantAccess "m1" (day 0) (oneMerchant (startOnly 50))).2 = Some m' ∧
         ¬ windowOrdered m').
Proof.
  split; [| split]; (split; [| eexists; split; [reflexivity |]]).
  - intros s e [= <-] [= <-]. unfold day, msPerDay. lia.
  - intros H. specialize (H (day 10) (day 5) eq_refl eq_refl).
    revert H. unfold day, msPerDay. lia.
  - intros s e [= <-] [= <-]. unfold day, msPerDay. lia.
  - intros H. specialize (H (day 28) (day 25) eq_refl eq_refl).
    revert H. unfold day, msPerDay. lia.
  - intros s e _ [=].
  - intros H. specialize (H (day 50) (day 30) eq_refl eq_refl).
    revert H. unfold day, msPerDay. lia.
Qed.

(** ** The payment polling *)

Module SignupFacts.
Import MerchantSignupForm.

Lemma maxChecks_600 : maxChecks = 600%nat.
Proof. by vm_compute. Qed.

(** An approval ends the polling and schedules the signup. *)
Lemma checkPaymentStatus_approved (f : Form) :
  let f' := checkPaymentStatus (Status "approved") f in
  paymentStatus f' = approved ∧ checkInterval f' = false ∧
  signupTimers f' = S (signupTimers f).
Proof. done. Qed.

(** A rejection or a cancellation ends the polling with ['failed']. *)
Lemma checkPaymentStatus_refused (s : string) (f : Form) :
  s = "rejected" ∨ s = "cancelled" →
  let f' := checkPaymentStatus (Status s) f in
  paymentStatus f' = failed ∧ checkInterval f' = false ∧ retryShown f' = true.
Proof. by intros [-> | ->]. Qed.

(** An exception during a check changes neither the status nor the
    timer: the next tick checks again. *)
Lemma checkPaymentStatus_threw (f : Form) :
  let f' := checkPaymentStatus Threw f in
  paymentStatus f' = paymentStatus f ∧ checkInterval f' = checkInterval f ∧
  toasts f' = toasts f.
Proof. done. Qed.

(** A property of the form that every event keeps holds after every
    schedule. *)
Lemma foldl_handle_keeps (P : Form → Prop) (rendered : PaymentStatus)
    (gateway : nat → Check) (schedule : list Event) :
  (∀ f e, P f → P (handle rendered gateway f e)) →
  ∀ f, P f → P (foldl (handle rendered gateway) f schedule).
Proof.
  intros Hstep. induction schedule as [|e l IH]; intros f Hf; [done |].
  cbn [foldl]. by apply IH, Hstep.
Qed.

Lemma checkPaymentStatus_cleared (r : Check) (f : Form) :
  checkInterval f = false → checkInterval (checkPaymentStatus r f) = false.
Proof.
  intros Hf. destruct r as [s|]; [| done]. unfold checkPaymentStatus.
  by repeat case_bool_decide.
Qed.

Lemma stopChecking_cleared (rendered : PaymentStatus) (f : Form) :
  checkInterval (stopChecking rendered f) = false.
Proof. unfold stopChecking. by case_bool_decide. Qed.

(** Nothing arms the interval again. *)
Lemma handle_cleared (rendered : PaymentStatus) (gateway : nat → Check)
    (f : Form) (e : Event) :
  checkInterval f = false → checkInterval (handle rendered gateway f e) = false.
Proof.
  intros Hf. destruct e as [|k|]; simpl.
  - by rewrite Hf.
  - case_bool_decide; [| done]. by apply checkPaymentStatus_cleared.
  - apply stopChecking_cleared.
Qed.

(** The polling always stops at the ceiling: once the callback of the
    timeout has run, the interval is cleared, whatever the gateway answers
    and in whatever order. *)
Lemma run_stops (rendered : PaymentStatus) (gateway : nat → Check)
    (before after : list Event) (f : Form) :
  checkInterval (run rendered gateway (before ++ Timeout :: after) f) = false.
Proof.
  unfold run. rewrite foldl_app. cbn [foldl].
  apply (foldl_handle_keeps (λ f, checkInterval f = false)).
  - intros g e. apply handle_cleared.
  - apply stopChecking_cleared.
Qed.

(** While the gateway answers ['pending'], no event other than the timeout
    touches the status or the toasts. *)
Lemma handle_alwaysPending (rendered : PaymentStatus) (f : Form) (e : Event) :
  e ≠ Timeout →
  paymentStatus (handle rendered alwaysPending f e) = paymentStatus f ∧
  toasts (handle rendered alwaysPending f e) = toasts f.
Proof.
  intros He. destruct e as [|k|]; simpl; [| | done].
  - by destruct (checkInterval f).
  - by case_bool_decide.
Qed.

(** When the callback of the timeout was created in a render that had
    ['processing'], a charge that stays pending ends in ['failed'] with
    the retry button. *)
Lemma run_timeout_rendered_processing (before after : list Event) :
  Timeout ∉ before → Timeout ∉ after →
  let f := run processing alwaysPending (before ++ Timeout :: after) initialForm in
  paymentStatus f = failed ∧ toasts f = [TempoEsgotado] ∧ retryShown f = true.
Proof.
  intros Hbefore Hafter. cbv zeta. unfold run. rewrite foldl_app. cbn [foldl].
  assert (∀ (l : list Event) (P : Form → Prop),
            Timeout ∉ l →
            (∀ f g, paymentStatus g = paymentStatus f → toasts g = toasts f →
                    P f → P g) →
            ∀ f, P f → P (foldl (handle processing alwaysPending) f l)) as Hkeep.
  { intros l P. induction l as [|e l IH]; intros Hl HP f Hf; [done |].
    apply not_elem_of_cons in Hl as [He Hl]. cbn [foldl].
    apply IH; [done | done |].
    destruct (handle_alwaysPending processing f e) as [Hs Ht]; [done |].
    by apply (HP f). }
  set (s := foldl _ (startPayment initialForm) before).
  assert (paymentStatus s = processing ∧ toasts s = []) as [Hs Ht].
  { apply (Hkeep before (λ f, paymentStatus f = processing ∧ toasts f = []));
      [done | | done].
    intros f g -> ->. done. }
  assert (paymentStatus (stopChecking processing s) = failed ∧
          toasts (stopChecking processing s) = [TempoEsgotado]) as Hstop.
  { unfold stopChecking. simpl. by rewrite Ht. }
  apply (Hkeep after (λ f, paymentStatus f = failed ∧ toasts f = [TempoEsgotado]
                           ∧ retryShown f = true)); [done | |].
  - intros f g Hgs Hgt (Hf1 & Hf2 & _). unfold retryShown.
    rewrite Hgs, Hgt, Hf1. done.
  - change (handle processing alwaysPending s Timeout)
      with (stopChecking processing s).
    destruct Hstop as [H1 H2]. unfold retryShown. by rewrite H1, H2.
Qed.

End SignupFacts.

(** C9, evaluated on the first payment attempt. [startPaymentStatusCheck]
    is called from the render in which [paymentStatus] is ['pending'],
    the gateway answers ['pending'] to every check and the page stays open
    past the 30 minutes, so that the callback of the timeout runs.  In
    whatever order the callbacks and the answers come, before and after the
    timeout, the polling stops, but the test of the timeout reads the
    ['pending'] of that render: the form stays in ['processing'], no toast
    is shown and the retry button is not rendered. *)
Theorem run_timeout_keeps_processing (before after : list MerchantSignupForm.Event) :
  let f := MerchantSignupForm.run MerchantSignupForm.pending alwaysPending
             (before ++ MerchantSignupForm.Timeout :: after)
             MerchantSignupForm.initialForm in
  MerchantSignupForm.checkInterval f = false ∧
  MerchantSignupForm.paymentStatus f = MerchantSignupForm.processing ∧
  MerchantSignupForm.toasts f = [] ∧
  MerchantSignupForm.retryShown f = false.
Proof.
  cbv zeta. split; [apply SignupFacts.run_stops |].
  unfold MerchantSignupForm.run.
  assert (MerchantSignupForm.paymentStatus
            (foldl (MerchantSignupForm.handle MerchantSignupForm.pending alwaysPending)
               (MerchantSignupForm.startPayment MerchantSignupForm.initialForm)
               (before ++ MerchantSignupForm.Timeout :: after))
          = MerchantSignupForm.processing ∧
          MerchantSignupForm.toasts
            (foldl (MerchantSignupForm.handle MerchantSignupForm.pending alwaysPending)
               (MerchantSignupForm.startPayment MerchantSignupForm.initialForm)
               (before ++ MerchantSignupForm.Timeout :: after))
          = []) as [Hs Ht].
  { apply (SignupFacts.foldl_handle_keeps
             (λ f, MerchantSignupForm.paymentStatus f = MerchantSignupForm.processing ∧
                   MerchantSignupForm.toasts f = [])); [| done].
    intros f e [Hs Ht].
    destruct (decide (e = MerchantSignupForm.Timeout)) as [-> | He].
    - done.
    - destruct (SignupFacts.handle_alwaysPending MerchantSignupForm.pending f e He)
        as [-> ->]. done. }
  split; [done |]. split; [done |].
  unfold MerchantSignupForm.retryShown. by rewrite Hs.
Qed.

(** ** Scenarios *)

(** A trial of 10 days granted on day 0 ends on day 10; the sweep of day 11
    rejects, and the merchant is still active. *)
Example trial_expires :
  let st := (grantMerchantAccess "m1" 10 None (day 0) (oneMerchant newMerchant)).1 in
  (accessEndDate <$> st !! "m1") = Some (Some (day 10)) ∧
  (processExpiredAccess (day 11) (frozen 11) st).2 = inl TypeError ∧
  (status <$> (processExpiredAccess (day 11) (frozen 11) st).1 !! "m1")
    = Some "active".
Proof. by vm_compute. Qed.

(** The text that the sweep hands to the comparison. *)
Example toISOString_samples :
  toISOString 0 = "1970-01-01T00:00:00.000Z" ∧
  toISOString (day 11) = "1970-01-12T00:00:00.000Z" ∧
  toISOString 1709210096789 = "2024-02-29T12:34:56.789Z" ∧
  toISOString (-1) = "1969-12-31T23:59:59.999Z".
Proof. by vm_compute. Qed.

(** A window that ends on day 30, renewed on day 20 with a cycle of 30 days,
    ends on day 60; renewed on day 45 instead, it ends on day 75. *)
Example renew_before_and_after_expiry :
  ((renewMerchantAccess "m1" (day 20)
      (oneMerchant (activeMerchant 0 30 (Some 30)))).2 ≫= accessEndDate)
    = Some (day 60) ∧
  ((renewMerchantAccess "m1" (day 45)
      (oneMerchant (activeMerchant 0 30 (Some 30)))).2 ≫= accessEndDate)
    = Some (day 75).
Proof. by vm_compute. Qed.

(** Granting access to an id that is not in the table. *)
Example grant_unknown_id :
  grantMerchantAccess "m9" 10 None (day 0) (oneMerchant newMerchant)
  = (oneMerchant newMerchant, None).
Proof. by apply grantMerchantAccess_absent. Qed.

(** The counters on day 10: the merchant whose window ends that day counts
    as expired, the other one as having access. *)
Example access_status_day_10 :
  let c := getMerchantsAccessStatus (day 10) twoMerchants in
  activeAccess c = 1%nat ∧ expiredAccess c = 1%nat ∧ paymentPending c = 0%nat.
Proof. by vm_compute. Qed.


(** * Further properties of the storage classes *)

(** ** Lifecycle operations on one merchant *)

Lemma updateMerchantAccessSettings_present (id : string) (settings : Updates)
    (now : Time) (st : Store) (m : Merchant) :
  st !! id = Some m →
  updateMerchantAccessSettings id settings now st =
  (<[id := set (settingsUpdates settings now) m]> st,
   Some (set (settingsUpdates settings now) m)).
Proof.
  intros Hid. unfold updateMerchantAccessSettings.
  by rewrite (update_by_id_returning_present _ _ _ _ Hid).
Qed.

Lemma updateMerchantAccessSettings_absent (id : string) (settings : Updates)
    (now : Time) (st : Store) :
  st !! id = None → updateMerchantAccessSettings id settings now st = (st, None).
Proof.
  intros Hid. unfold updateMerchantAccessSettings.
  by rewrite (update_by_id_returning_absent _ _ _ Hid).
Qed.

(** X1. On an id that the table does not have, [renewMerchantAccess],
    [suspendMerchantAccess] and [updateMerchantAccessSettings] return no
    merchant and leave the table as it is. *)
Theorem unknown_merchant_unchanged (id : string) (settings : Updates) (now : Time)
    (st : Store) :
  st !! id = None →
  renewMerchantAccess id now st = (st, None) ∧
  suspendMerchantAccess id now st = (st, None) ∧
  updateMerchantAccessSettings id settings now st = (st, None).
Proof.
  intros Hid. split; [| split].
  - by apply renewMerchantAccess_absent.
  - by apply suspendMerchantAccess_absent.
  - by apply updateMerchantAccessSettings_absent.
Qed.

Lemma unknown_merchant_unchanged_witness :
  renewMerchantAccess "m9" (day 20) twoMerchants = (twoMerchants, None) ∧
  suspendMerchantAccess "m9" (day 20) twoMerchants = (twoMerchants, None) ∧
  updateMerchantAccessSettings "m9" (feeOnly 7000) (day 20) twoMerchants
    = (twoMerchants, None).
Proof.
  apply (unknown_merchant_unchanged "m9" (feeOnly 7000) (day 20) twoMerchants).
  reflexivity.
Defined.

Lemma update_by_id_other (u : Updates) (id j : string) (st : Store) :
  j ≠ id → update_by_id u id st !! j = st !! j.
Proof. intros Hne. rewrite update_by_id_lookup. by rewrite decide_False. Qed.

(** The tables that the four operations on [id] produce. *)
Lemma lifecycle_tables (id : string) (d : Z) (fee : option Z) (settings : Updates)
    (now : Time) (st : Store) :
  (grantMerchantAccess id d fee now st).1 = update_by_id (grantUpdates d fee now) id st ∧
  (suspendMerchantAccess id now st).1 = update_by_id (suspendUpdates now) id st ∧
  (updateMerchantAccessSettings id settings now st).1 =
    update_by_id (settingsUpdates settings now) id st ∧
  ∃ u, (renewMerchantAccess id now st).1 = update_by_id u id st.
Proof.
  repeat split.
  destruct (st !! id) as [m|] eqn:Hid.
  - exists (renewUpdates m now).
    rewrite (renewMerchantAccess_present _ _ _ _ Hid). simpl.
    by rewrite (update_by_id_present _ _ _ _ Hid).
  - exists (suspendUpdates now).
    rewrite (renewMerchantAccess_absent _ _ _ Hid). simpl.
    by rewrite (update_by_id_absent _ _ _ Hid).
Qed.

(** X2. Granting, renewing, suspending and the settings update on one id add
    no row, remove none, and leave the row of every other merchant as it
    is. *)
Theorem lifecycle_touches_one_row (id : string) (d : Z) (fee : option Z)
    (settings : Updates) (now : Time) (st : Store) :
  let after (st' : Store) :=
    dom st' = dom st ∧ ∀ j, j ≠ id → st' !! j = st !! j in
  after (grantMerchantAccess id d fee now st).1 ∧
  after (renewMerchantAccess id now st).1 ∧
  after (suspendMerchantAccess id now st).1 ∧
  after (updateMerchantAccessSettings id settings now st).1.
Proof.
  cbv zeta.
  destruct (lifecycle_tables id d fee settings now st) as (-> & -> & -> & u & ->).
  repeat split; try apply update_by_id_dom; intros j Hj; by apply update_by_id_other.
Qed.

(** The two tests on a row as the grant writes it. *)
Lemma granted_row_tests (durationDays : Z) (fee : option Z) (now t : Time)
    (m : Merchant) :
  (isActiveAccess t (set (grantUpdates durationDays fee now) m) = true ↔
     t < now + durationDays * msPerDay) ∧
  (whereExpired t (set (grantUpdates durationDays fee now) m) = true ↔
     now + durationDays * msPerDay ≤ t).
Proof.
  unfold isActiveAccess, whereExpired. simpl.
  rewrite !addDays_ms. rewrite Z.gtb_lt, Z.leb_le. done.
Qed.

(** X3. After [grantMerchantAccess] at [now], the merchant passes the test of
    live access at the times before [now + durationDays] days and at no other
    time, and satisfies the condition of the expiry queries from that instant
    on. *)
Theorem grantMerchantAccess_live_until_end (id : string) (durationDays : Z)
    (fee : option Z) (now : Time) (st : Store) (m : Merchant) :
  st !! id = Some m →
  ∃ m' : Merchant,
    (grantMerchantAccess id durationDays fee now st).1 !! id = Some m' ∧
    ∀ t : Time,
      (isActiveAccess t m' = true ↔ t < now + durationDays * msPerDay) ∧
      (whereExpired t m' = true ↔ now + durationDays * msPerDay ≤ t).
Proof.
  intros Hid. exists (set (grantUpdates durationDays fee now) m). split.
  - rewrite (grantMerchantAccess_present _ _ _ _ _ _ Hid). simpl.
    by rewrite lookup_insert_eq.
  - intros t. apply granted_row_tests.
Qed.

Lemma grantMerchantAccess_live_until_end_witness :
  ∃ m' : Merchant,
    (grantMerchantAccess "m1" 10 None (day 0) (oneMerchant newMerchant)).1 !! "m1"
      = Some m' ∧
    isActiveAccess (day 9) m' = true ∧
    whereExpired (day 10) m' = true.
Proof.
  destruct (grantMerchantAccess_live_until_end "m1" 10 None (day 0)
              (oneMerchant newMerchant) newMerchant eq_refl) as (m' & Hm' & Ht).
  exists m'. split; [exact Hm' |]. split.
  - apply (Ht (day 9)). unfold day, msPerDay. lia.
  - apply (Ht (day 10)). unfold day, msPerDay. lia.
Defined.

(** X4. A renewal of a merchant whose stored cycle length is not negative
    gives live access at the time of the renewal, whatever the status and
    the window were: the merchant passes the test of live access and is not
    selected by the expiry query. *)
Theorem renewMerchantAccess_live (id : string) (now : Time) (st : Store)
    (m : Merchant) :
  st !! id = Some m →
  (∀ d : Z, accessDurationDays m = Some d → 0 ≤ d) →
  ∃ m' : Merchant,
    (renewMerchantAccess id now st).1 !! id = Some m' ∧
    isActiveAccess now m' = true ∧
    whereExpired now m' = false.
Proof.
  intros Hid Hd. exists (set (renewUpdates m now) m). split.
  - rewrite (renewMerchantAccess_present _ _ _ _ Hid). simpl.
    by rewrite lookup_insert_eq.
  - assert (now < addDays (renewBaseDate m now) (renewDurationDays m)) as Hlt.
    { rewrite addDays_ms. destruct (renewBaseDate_ge m now) as [Hb _].
      assert (0 < renewDurationDays m); [| unfold msPerDay; lia].
      rewrite renewDurationDays_cases.
      destruct (accessDurationDays m) as [d|] eqn:Ed; [| lia].
      specialize (Hd d eq_refl). destruct d; lia. }
    unfold isActiveAccess, whereExpired. simpl. split.
    + by apply Z.gtb_lt.
    + by apply Z.leb_gt.
Qed.

Lemma renewMerchantAccess_live_witness :
  ∃ m' : Merchant,
    (renewMerchantAccess "m1" (day 45)
       (oneMerchant (demotedMerchant 0 30 (Some 30)))).1 !! "m1" = Some m' ∧
    isActiveAccess (day 45) m' = true ∧
    whereExpired (day 45) m' = false.
Proof.
  apply (renewMerchantAccess_live "m1" (day 45)
           (oneMerchant (demotedMerchant 0 30 (Some 30)))
           (demotedMerchant 0 30 (Some 30)) eq_refl).
  intros d [= <-]. lia.
Defined.

(** X5. A suspension leaves no trace in a later renewal: renewing after
    [suspendMerchantAccess] gives the table and the merchant that the
    renewal alone gives. *)
Theorem suspend_then_renew (id : string) (t1 t2 : Time) (st : Store) :
  renewMerchantAccess id t2 (suspendMerchantAccess id t1 st).1 =
  renewMerchantAccess id t2 st.
Proof.
  destruct (st !! id) as [m|] eqn:Hid.
  - rewrite (suspendMerchantAccess_present _ _ _ _ Hid). simpl.
    rewrite (renewMerchantAccess_present id t2 _ (set (suspendUpdates t1) m))
      by apply lookup_insert_eq.
    rewrite (renewMerchantAccess_present _ _ _ _ Hid).
    by rewrite insert_insert_eq.
  - rewrite (suspendMerchantAccess_absent _ _ _ Hid). done.
Qed.

(** X6. Renewals add up: two renewals made while the window is still
    running, the second one no later than the end reached by the first, move
    the end date by two cycles and the next payment by three, whatever the
    times of the renewals. *)
Theorem renew_twice (id : string) (t1 t2 e d : Z) (st : Store) (m : Merchant) :
  st !! id = Some m →
  accessEndDate m = Some e →
  accessDurationDays m = Some d →
  0 < d →
  t1 ≤ e →
  t2 ≤ e + d * msPerDay →
  ∃ m' : Merchant,
    (renewMerchantAccess id t2 (renewMerchantAccess id t1 st).1).2 = Some m' ∧
    accessEndDate m' = Some (e + 2 * d * msPerDay) ∧
    nextPaymentDue m' = Some (e + 3 * d * msPerDay) ∧
    accessStartDate m' = Some (or_date (accessStartDate m) t1).
Proof.
  intros Hid He Hd Hpos Ht1 Ht2.
  rewrite (renewMerchantAccess_present _ _ _ _ Hid). simpl.
  rewrite (renewMerchantAccess_present id t2 _ (set (renewUpdates m t1) m))
    by apply lookup_insert_eq.
  eexists. split; [reflexivity |].
  assert (renewDurationDays m = d) as Hdd.
  { rewrite renewDurationDays_cases, Hd. destruct d; lia. }
  assert (renewBaseDate m t1 = e) as Hb1.
  { rewrite renewBaseDate_max, He. lia. }
  assert (renewDurationDays (set (renewUpdates m t1) m) = d) as Hdd2.
  { rewrite renewDurationDays_cases. simpl. rewrite Hd. destruct d; lia. }
  assert (renewBaseDate (set (renewUpdates m t1) m) t2 = e + d * msPerDay) as Hb2.
  { rewrite renewBaseDate_max. simpl. rewrite Hb1, Hdd, addDays_ms. lia. }
  simpl. rewrite Hdd2, Hb2, !addDays_ms. repeat split; f_equal; lia.
Qed.

Lemma renew_twice_witness :
  ∃ m' : Merchant,
    (renewMerchantAccess "m1" (day 25)
       (renewMerchantAccess "m1" (day 20)
          (oneMerchant (activeMerchant 0 30 (Some 30)))).1).2 = Some m' ∧
    accessEndDate m' = Some (day 90) ∧
    nextPaymentDue m' = Some (day 120).
Proof.
  destruct (renew_twice "m1" (day 20) (day 25) (day 30) 30
              (oneMerchant (activeMerchant 0 30 (Some 30)))
              (activeMerchant 0 30 (Some 30)) eq_refl eq_refl eq_refl)
    as (m' & Hr & He & Hn & _).
  - lia.
  - unfold day, msPerDay. lia.
  - unfold day, msPerDay. lia.
  - exists m'. split; [exact Hr |]. split; [exact He | exact Hn].
Defined.

(** ** Counters and queries over the merchants *)

Lemma length_filter_fmap {A B : Type} (f : A → B) (P : B → Prop)
    `{!∀ y, Decision (P y)} (l : list A) :
  length (filter P (f <$> l)) = length (filter (λ x, P (f x)) l).
Proof.
  induction l as [|x l IH]; [done |].
  rewrite fmap_cons, !filter_cons. destruct (decide (P (f x))); simpl; by rewrite IH.
Qed.

(** A counter over the rows is the size of the filtered table. *)
Lemma count_rows (P : Merchant → Prop) `{!∀ m, Decision (P m)} (st : Store) :
  length (filter P (map_to_list st).*2) = size (filter (λ r : Row, P r.2) st).
Proof.
  rewrite length_filter_fmap, map_filter_alt, map_size_list_to_map; [done |].
  apply NoDup_fmap_fst.
  - intros i m1 m2 H1 H2.
    apply list_elem_of_filter in H1 as [_ H1], H2 as [_ H2].
    apply elem_of_map_to_list in H1, H2. congruence.
  - apply NoDup_filter, NoDup_map_to_list.
Qed.

Lemma length_filter_disjoint {A : Type} (P Q : A → Prop) `{!∀ x, Decision (P x)}
    `{!∀ x, Decision (Q x)} (l : list A) :
  (∀ x, P x → Q x → False) →
  (length (filter P l) + length (filter Q l) ≤ length l)%nat.
Proof.
  intros Hdisj. induction l as [|x l IH]; [done |].
  rewrite !filter_cons.
  destruct (decide (P x)) as [HP|HP], (decide (Q x)) as [HQ|HQ]; simpl; try lia.
  destruct (Hdisj x HP HQ).
Qed.

(** X7. In the counters of [getMerchantsAccessStatus] no merchant counts
    twice among [activeAccess], [expiredAccess] and [paymentPending] in a
    way that would exceed the table: a merchant with live access is neither
    counted as expired nor as payment pending. *)
Theorem accessStatus_disjoint (now : Time) (st : Store) :
  let c := getMerchantsAccessStatus now st in
  (activeAccess c + expiredAccess c ≤ size st)%nat ∧
  (activeAccess c + paymentPending c ≤ size st)%nat.
Proof.
  cbv zeta. unfold getMerchantsAccessStatus. simpl.
  rewrite <- (length_map_to_list st), <- (length_fmap snd (map_to_list st)).
  split; apply length_filter_disjoint; intros m.
  - unfold isActiveAccess, isExpiredAccess.
    destruct (accessEndDate m) as [e|]; [| done].
    rewrite andb_True, !Is_true_true, Z.gtb_lt, Z.leb_le. lia.
  - unfold isActiveAccess. rewrite andb_True, bool_decide_spec.
    intros [Hs _] Hp. congruence.
Qed.

Lemma length_filter_mono {A : Type} (P Q : A → Prop) `{!∀ x, Decision (P x)}
    `{!∀ x, Decision (Q x)} (l : list A) :
  (∀ x, P x → Q x) → (length (filter P l) ≤ length (filter Q l))%nat.
Proof.
  intros Himp. induction l as [|x l IH]; [done |].
  rewrite !filter_cons.
  destruct (decide (P x)) as [HP|HP], (decide (Q x)) as [HQ|HQ]; simpl; try lia.
  destruct (HQ (Himp x HP)).
Qed.

(** X9. [getMerchantsWithExpiredAccess] rejects for every table and every
    time and returns no row: it compares the timestamp column
    [accessEndDate] with [now.toISOString()], a string.  The counter
    [expiredAccess] of [getMerchantsAccessStatus], which compares the dates
    in JavaScript, counts every merchant that the query is to return. *)
Theorem getMerchantsWithExpiredAccess_raises (now : Time) (st : Store) :
  getMerchantsWithExpiredAccess now st = inl TypeError ∧
  (size (filter (λ r : Row, expiredActive now r.2) st)
   ≤ expiredAccess (getMerchantsAccessStatus now st))%nat.
Proof.
  split; [reflexivity |]. rewrite <- count_rows.
  unfold getMerchantsAccessStatus. cbn [expiredAccess].
  apply length_filter_mono. intros m [_ (e & He & Hle)].
  unfold isExpiredAccess. rewrite He. by apply Is_true_true, Z.leb_le.
Qed.

(** X10. [deleteMerchant] removes the row of the id: afterwards
    [getMerchant] finds nothing under it, the other rows are as they were,
    and a table that did not have the id is unchanged.  Its answer is
    [false] for every id, also when it has removed a row: it reads
    [rowCount], which the result of the driver does not have. *)
Theorem deleteMerchant_removes (id : string) (st : Store) :
  let st' := (deleteMerchant id st).1 in
  (deleteMerchant id st).2 = false ∧
  getMerchant id st' = None ∧
  (∀ j, j ≠ id → st' !! j = st !! j) ∧
  (st !! id = None → st' = st).
Proof.
  cbv zeta. unfold deleteMerchant, getMerchant, select_by_id. simpl.
  rewrite lookup_delete_eq. split; [done | split; [done | split]].
  - intros j Hj. by rewrite lookup_delete_ne.
  - intros Hid. by apply delete_id.
Qed.

Lemma deleteMerchant_removes_witness :
  (deleteMerchant "m9" twoMerchants).1 = twoMerchants ∧
  (deleteMerchant "m1" twoMerchants).2 = false ∧
  (deleteMerchant "m1" twoMerchants).1 !! "m1" = None ∧
  (deleteMerchant "m1" twoMerchants).1 !! "m2" = twoMerchants !! "m2".
Proof.
  split; [| split; [| split]].
  - apply (deleteMerchant_removes "m9" twoMerchants). reflexivity.
  - apply (deleteMerchant_removes "m1" twoMerchants).
  - apply (deleteMerchant_removes "m1" twoMerchants).
  - apply (deleteMerchant_removes "m1" twoMerchants). done.
Defined.

#[global] Instance newerFirst_total : Total newerFirst.
Proof. intros a b. unfold newerFirst. lia. Qed.

(** X11. [getAllMerchants] returns every row of the table once, and no
    other, with the merchants created later first. *)
Theorem getAllMerchants_sorted (st : Store) :
  Sorted newerFirst (getAllMerchants st) ∧
  NoDup (getAllMerchants st) ∧
  length (getAllMerchants st) = size st ∧
  ∀ (i : string) (m : Merchant), (i, m) ∈ getAllMerchants st ↔ st !! i = Some m.
Proof.
  unfold getAllMerchants.
  pose proof (merge_sort_Permutation newerFirst (map_to_list st)) as Hperm.
  split; [apply (Sorted_merge_sort newerFirst) | split; [| split]].
  - rewrite Hperm. apply NoDup_map_to_list.
  - rewrite Hperm. apply length_map_to_list.
  - intros i m. rewrite Hperm. apply elem_of_map_to_list.
Qed.

(** ** Employees *)

Lemma getEmployeesByMerchant_plain (mid : string) (es : EmployeeStore) :
  PostgreSQLStorage.getEmployeesByMerchant mid es =
  SQLiteStorage.getEmployeesByMerchant mid es.
Proof.
  unfold PostgreSQLStorage.getEmployeesByMerchant,
    SQLiteStorage.getEmployeesByMerchant.
  set (result := filter _ (map_to_list es)).
  assert (filter (λ r : EmployeeRow, Employees.merchantId r.2 ≠ mid) result = [])
    as ->; [| done].
  apply elem_of_nil_inv. intros r Hr.
  apply list_elem_of_filter in Hr as [Hne Hr].
  apply list_elem_of_filter in Hr as [Heq _]. done.
Qed.

(** The rows that the query of [getEmployeesByMerchant] selects. *)
Lemma getEmployeesByMerchant_rows (mid : string) (es : EmployeeStore) :
  NoDup (SQLiteStorage.getEmployeesByMerchant mid es) ∧
  ∀ (i : string) (e : Employees.Employee),
    (i, e) ∈ SQLiteStorage.getEmployeesByMerchant mid es ↔
    es !! i = Some e ∧ Employees.merchantId e = mid.
Proof.
  unfold SQLiteStorage.getEmployeesByMerchant. split.
  - apply NoDup_filter, NoDup_map_to_list.
  - intros i e. rewrite list_elem_of_filter, elem_of_map_to_list. simpl.
    split; intros [? ?]; done.
Qed.

(** X12. [getEmployeesByMerchant] of the production class returns the rows
    that its query selects, which is what the development class returns:
    every employee of the merchant once, and no employee of another
    merchant.  The branch that drops foreign rows is never taken. *)
Theorem getEmployeesByMerchant_exact (mid : string) (es : EmployeeStore) :
  PostgreSQLStorage.getEmployeesByMerchant mid es =
    SQLiteStorage.getEmployeesByMerchant mid es ∧
  NoDup (PostgreSQLStorage.getEmployeesByMerchant mid es) ∧
  ∀ (i : string) (e : Employees.Employee),
    (i, e) ∈ PostgreSQLStorage.getEmployeesByMerchant mid es ↔
    es !! i = Some e ∧ Employees.merchantId e = mid.
Proof.
  rewrite getEmployeesByMerchant_plain. split; [done |].
  apply getEmployeesByMerchant_rows.
Qed.

Lemma updateEmployee_agree (hash : string → string) (id : string)
    (u : Employees.Patch) (now : Time) (es : EmployeeStore) :
  truthy_key (Employees.set_password u) = false →
  PostgreSQLStorage.updateEmployee hash id u now es =
  SQLiteStorage.updateEmployee id u now es.
Proof.
  intros Hp.
  unfold PostgreSQLStorage.updateEmployee, SQLiteStorage.updateEmployee,
    PostgreSQLStorage.getEmployee, SQLiteStorage.getEmployee.
  rewrite Hp. destruct (es !! id) as [e|] eqn:Hid.
  - rewrite !(alter_alt_Some _ _ _ _ Hid). by rewrite lookup_insert_eq.
  - rewrite alter_alt, Hid. by rewrite Hid.
Qed.




(** *** The synchronisation of the hours *)

Lemma default_difference (x y : string) :
  default y (if truthy x && negb (bool_decide (x = y)) then Some x else None)
  = if truthy x then x else y.
Proof.
  destruct (truthy x); [| done]. simpl. by case_bool_decide.
Qed.

Lemma hasKeys_false (u : Employees.Patch) :
  Employees.hasKeys u = false →
  Employees.set_workDays u = None ∧
  Employees.set_startTime u = None ∧
  Employees.set_endTime u = None.
Proof.
  unfold Employees.hasKeys. intros H.
  repeat (apply orb_false_iff in H as [H ?]).
  by destruct (Employees.set_workDays u), (Employees.set_startTime u),
    (Employees.set_endTime u).
Qed.

Lemma syncedEmployee_spec (merchant : Merchant) (t : Time) (e : Employees.Employee) :
  sameButHours e (syncedEmployee merchant t e) ∧
  hoursFollow merchant e (syncedEmployee merchant t e).
Proof.
  pose proof (default_difference (startTime (profile merchant))
                (Employees.startTime e)) as Hs.
  pose proof (default_difference (endTime (profile merchant))
                (Employees.endTime e)) as He.
  pose proof (default_difference (workDays (profile merchant))
                (Employees.workDays e)) as Hw.
  unfold syncedEmployee.
  destruct (Employees.hasKeys (StorageMethods.hoursUpdates merchant e)) eqn:Hk.
  - split; [unfold sameButHours; repeat split |].
    unfold hoursFollow. cbn [StorageMethods.hoursUpdates Employees.merge
      Employees.startTime Employees.endTime Employees.workDays
      Employees.set_startTime Employees.set_endTime Employees.set_workDays].
    by rewrite Hs, He, Hw.
  - apply hasKeys_false in Hk as (Hw' & Hs' & He').
    cbn [StorageMethods.hoursUpdates Employees.set_startTime Employees.set_endTime
      Employees.set_workDays] in Hw', Hs', He'.
    rewrite Hs' in Hs. rewrite He' in He. rewrite Hw' in Hw.
    split; [unfold sameButHours; repeat split |].
    unfold hoursFollow. by rewrite <- Hs, <- He, <- Hw.
Qed.

Lemma no_difference (x y z : string) :
  y = (if truthy x then x else z) →
  (if truthy x && negb (bool_decide (x = y)) then Some x else None) = None.
Proof.
  intros ->. destruct (truthy x); [| done].
  by rewrite bool_decide_eq_true_2.
Qed.

(** A synchronised employee needs no further update. *)
Lemma syncedEmployee_settled (merchant : Merchant) (t : Time)
    (e : Employees.Employee) :
  Employees.hasKeys
    (StorageMethods.hoursUpdates merchant (syncedEmployee merchant t e)) = false.
Proof.
  destruct (syncedEmployee_spec merchant t e) as [_ (Hs & He & Hw)].
  unfold StorageMethods.hoursUpdates, Employees.hasKeys.
  cbn [Employees.set_merchantId Employees.set_name Employees.set_email
    Employees.set_password Employees.set_phone Employees.set_role
    Employees.set_specialties Employees.set_workDays Employees.set_startTime
    Employees.set_endTime Employees.set_breakStartTime Employees.set_breakEndTime
    Employees.set_paymentType Employees.set_paymentValue
    Employees.set_extendedEndTime Employees.set_overtimeHours
    Employees.set_lastOvertimeDate Employees.set_isActive].
  by rewrite (no_difference _ _ _ Hs), (no_difference _ _ _ He),
    (no_difference _ _ _ Hw).
Qed.

Lemma syncOne_other (merchant : Merchant) (clock : nat → Time)
    (acc : EmployeeStore * nat) (r : EmployeeRow) (k : string) :
  k ≠ r.1 →
  (StorageMethods.syncOne SQLiteStorage.updateEmployee merchant clock acc r).1 !! k
  = acc.1 !! k.
Proof.
  intros Hk. unfold StorageMethods.syncOne.
  destruct (Employees.hasKeys _); [| done].
  unfold SQLiteStorage.updateEmployee. simpl. by rewrite lookup_alter_ne.
Qed.

Lemma syncOne_self (merchant : Merchant) (clock : nat → Time)
    (acc : EmployeeStore * nat) (r : EmployeeRow) :
  acc.1 !! r.1 = Some r.2 →
  (StorageMethods.syncOne SQLiteStorage.updateEmployee merchant clock acc r).1 !! r.1
  = Some (syncedEmployee merchant (clock acc.2) r.2).
Proof.
  intros Hr. unfold StorageMethods.syncOne, syncedEmployee.
  destruct (Employees.hasKeys _); [| done].
  unfold SQLiteStorage.updateEmployee. simpl. by rewrite lookup_alter_eq, Hr.
Qed.

Lemma sync_loop (merchant : Merchant) (clock : nat → Time) (l : list EmployeeRow) :
  NoDup l.*1 →
  ∀ acc : EmployeeStore * nat,
    (∀ i e, (i, e) ∈ l → acc.1 !! i = Some e) →
    ∀ i : string,
      let es' :=
        (foldl (StorageMethods.syncOne SQLiteStorage.updateEmployee merchant clock)
               acc l).1 in
      (i ∉ l.*1 → es' !! i = acc.1 !! i) ∧
      (∀ e, (i, e) ∈ l → ∃ t, es' !! i = Some (syncedEmployee merchant t e)).
Proof.
  induction l as [|[j ej] l IH]; intros Hnd acc Hacc i; cbv zeta.
  - split; [done |]. intros e He. by apply elem_of_nil in He.
  - rewrite fmap_cons in Hnd. apply NoDup_cons in Hnd as [Hj Hnd].
    cbn [foldl].
    set (acc' := StorageMethods.syncOne SQLiteStorage.updateEmployee merchant
                   clock acc (j, ej)).
    assert (acc'.1 !! j = Some (syncedEmployee merchant (clock acc.2) ej)) as Hself.
    { apply (syncOne_self merchant clock acc (j, ej)). apply Hacc. by left. }
    assert (∀ i e, (i, e) ∈ l → acc'.1 !! i = Some e) as Hacc'.
    { intros i' e' He'. unfold acc'. rewrite syncOne_other.
      - apply Hacc. by right.
      - simpl. intros ->. apply Hj. apply list_elem_of_fmap. by exists (j, e'). }
    destruct (IH Hnd acc' Hacc' i) as [IHo IHl].
    destruct (IH Hnd acc' Hacc' j) as [IHj _].
    split.
    + intros Hi. rewrite fmap_cons, not_elem_of_cons in Hi. destruct Hi as [Hne Hi].
      rewrite (IHo Hi). unfold acc'. by rewrite syncOne_other.
    + intros e He. apply elem_of_cons in He as [[= -> ->] | He].
      * exists (clock acc.2). by rewrite (IHj Hj).
      * by apply IHl.
Qed.

(** Each row after the synchronisation, in the development class. *)
Lemma sync_rows (mid : string) (merchant : Merchant) (clock : nat → Time)
    (es : EmployeeStore) (i : string) :
  let es' := SQLiteStorage.syncEmployeeHoursWithMerchant mid merchant clock es in
  match es !! i with
  | Some e =>
      if decide (Employees.merchantId e = mid)
      then ∃ t, es' !! i = Some (syncedEmployee merchant t e)
      else es' !! i = Some e
  | None => es' !! i = None
  end.
Proof.
  cbv zeta. unfold SQLiteStorage.syncEmployeeHoursWithMerchant,
    StorageMethods.syncEmployeeHoursWithMerchant.
  destruct (getEmployeesByMerchant_rows mid es) as [Hnd Hin].
  set (l := SQLiteStorage.getEmployeesByMerchant mid es) in *.
  assert (NoDup l.*1) as Hkeys.
  { apply NoDup_fmap_fst; [| done]. intros k e1 e2 H1 H2.
    apply Hin in H1 as [H1 _], H2 as [H2 _]. congruence. }
  assert (∀ k e, (k, e) ∈ l → (es, 0%nat).1 !! k = Some e) as Hacc.
  { intros k e He. by apply Hin in He as [He _]. }
  destruct (sync_loop merchant clock l Hkeys (es, 0%nat) Hacc i) as [Ho Hl].
  assert (∀ e, es !! i = Some e → Employees.merchantId e ≠ mid → i ∉ l.*1) as Hout.
  { intros e Hi Hne Hk. apply list_elem_of_fmap in Hk as ([k e'] & -> & He').
    apply Hin in He' as [He' Hm]. simpl in Hi. congruence. }
  destruct (es !! i) as [e|] eqn:Hi.
  - destruct (decide (Employees.merchantId e = mid)) as [Hm|Hm].
    + apply Hl. by apply Hin.
    + rewrite Ho; [done |]. by apply (Hout e).
  - rewrite Ho; [done |]. intros Hk.
    apply list_elem_of_fmap in Hk as ([k e'] & -> & He').
    apply Hin in He' as [He' _]. simpl in Hi. congruence.
Qed.

Lemma foldl_pointwise {A B : Type} (f g : A → B → A) (l : list B) :
  (∀ a x, f a x = g a x) → ∀ a, foldl f a l = foldl g a l.
Proof.
  intros Hfg. induction l as [|x l IH]; intros a; [done |].
  simpl. by rewrite Hfg, IH.
Qed.

(** The two storage classes synchronise in the same way. *)
Lemma sync_agree (hash : string → string) (mid : string) (merchant : Merchant)
    (clock : nat → Time) (es : EmployeeStore) :
  PostgreSQLStorage.syncEmployeeHoursWithMerchant hash mid merchant clock es =
  SQLiteStorage.syncEmployeeHoursWithMerchant mid merchant clock es.
Proof.
  unfold PostgreSQLStorage.syncEmployeeHoursWithMerchant,
    SQLiteStorage.syncEmployeeHoursWithMerchant,
    StorageMethods.syncEmployeeHoursWithMerchant.
  rewrite getEmployeesByMerchant_plain. f_equal.
  apply foldl_pointwise. intros acc r. unfold StorageMethods.syncOne.
  destruct (Employees.hasKeys _); [| done].
  by rewrite updateEmployee_agree.
Qed.

(** What the synchronisation does to each row of the employees. *)
Lemma sync_rows_follow (mid : string) (merchant : Merchant)
    (clock : nat → Time) (es : EmployeeStore) (i : string) :
  let es' := SQLiteStorage.syncEmployeeHoursWithMerchant mid merchant clock es in
  match es !! i with
  | Some e =>
      ∃ e' : Employees.Employee,
        es' !! i = Some e' ∧
        sameButHours e e' ∧
        (Employees.merchantId e = mid → hoursFollow merchant e e') ∧
        (Employees.merchantId e ≠ mid → e' = e)
  | None => es' !! i = None
  end.
Proof.
  cbv zeta.
  pose proof (sync_rows mid merchant clock es i) as Hrow. cbv zeta in Hrow.
  destruct (es !! i) as [e|]; [| done].
  destruct (decide (Employees.merchantId e = mid)) as [Hm|Hm].
  - destruct Hrow as [t Ht]. exists (syncedEmployee merchant t e).
    destruct (syncedEmployee_spec merchant t e) as [Hsame Hhours].
    split; [done |]. split; [done |]. split; done.
  - exists e. split; [done |]. split; [| split; done].
    unfold sameButHours. repeat split.
Qed.

(** X14. After [syncEmployeeHoursWithMerchant], every employee of the
    merchant has the merchant's start time, end time and work days, each
    where the merchant's value is not empty; the employees of other merchants
    are as they were; no employee is added or removed, and no column other
    than the three and [updatedAt] changes. *)
Theorem syncEmployeeHours_rows (hash : string → string) (mid : string)
    (merchant : Merchant) (clock : nat → Time) (es : EmployeeStore) (i : string) :
  let es' :=
    PostgreSQLStorage.syncEmployeeHoursWithMerchant hash mid merchant clock es in
  match es !! i with
  | Some e =>
      ∃ e' : Employees.Employee,
        es' !! i = Some e' ∧
        sameButHours e e' ∧
        (Employees.merchantId e = mid → hoursFollow merchant e e') ∧
        (Employees.merchantId e ≠ mid → e' = e)
  | None => es' !! i = None
  end.
Proof.
  cbv zeta. rewrite sync_agree. apply sync_rows_follow.
Qed.

Lemma sync_loop_settled (merchant : Merchant) (clock : nat → Time)
    (l : list EmployeeRow) :
  (∀ r, r ∈ l → Employees.hasKeys (StorageMethods.hoursUpdates merchant r.2) = false) →
  ∀ acc,
    foldl (StorageMethods.syncOne SQLiteStorage.updateEmployee merchant clock) acc l
    = acc.
Proof.
  induction l as [|r l IH]; intros Hl acc; [done |].
  cbn [foldl]. unfold StorageMethods.syncOne at 2.
  rewrite (Hl r) by by left. apply IH. intros r' Hr'. apply Hl. by right.
Qed.

(** X15. The synchronisation is idempotent: run again on its result, with
    the same merchant, it writes nothing, whatever the clock reads. *)
Theorem syncEmployeeHours_idempotent (hash : string → string) (mid : string)
    (merchant : Merchant) (clock clock' : nat → Time) (es : EmployeeStore) :
  PostgreSQLStorage.syncEmployeeHoursWithMerchant hash mid merchant clock'
    (PostgreSQLStorage.syncEmployeeHoursWithMerchant hash mid merchant clock es) =
  PostgreSQLStorage.syncEmployeeHoursWithMerchant hash mid merchant clock es.
Proof.
  rewrite !sync_agree.
  set (es' := SQLiteStorage.syncEmployeeHoursWithMerchant mid merchant clock es).
  unfold SQLiteStorage.syncEmployeeHoursWithMerchant at 1.
  unfold StorageMethods.syncEmployeeHoursWithMerchant.
  rewrite sync_loop_settled; [done |].
  intros [i e'] Hr.
  apply (proj2 (getEmployeesByMerchant_rows mid es')) in Hr as [Hi' Hm'].
  pose proof (sync_rows mid merchant clock es i) as Hrow. cbv zeta in Hrow.
  fold es' in Hrow. simpl.
  destruct (es !! i) as [e|]; [| congruence].
  destruct (decide (Employees.merchantId e = mid)) as [Hm|Hm].
  - destruct Hrow as [t Ht]. replace e' with (syncedEmployee merchant t e)
      by congruence. apply syncedEmployee_settled.
  - replace e' with e in Hm' by congruence. done.
Qed.

(** ** Updates of a whole merchant *)

(** X16. [updateMerchant] gives the same merchants, employees and result in
    the two storage classes. *)
Theorem updateMerchant_backends_agree (hash : string → string) (id : string)
    (u : MerchantPatch) (now : Time) (clock : nat → Time) (ms : Store)
    (es : EmployeeStore) :
  PostgreSQLStorage.updateMerchant hash id u now clock ms es =
  SQLiteStorage.updateMerchant hash id u now clock ms es.
Proof.
  unfold PostgreSQLStorage.updateMerchant, SQLiteStorage.updateMerchant,
    StorageMethods.updateMerchant.
  destruct (head (select_by_id id ms)) as [m|]; [| done].
  destruct (truthy_key (patch_startTime u) || truthy_key (patch_endTime u)
            || truthy_key (patch_workDays u)); [| done].
  f_equal. f_equal. apply sync_agree.
Qed.

(** X17. On an id that the table does not have, [updateMerchant] returns no
    merchant and changes neither the merchants nor the employees, whatever
    the updates are. *)
Theorem updateMerchant_unknown (hash : string → string) (id : string)
    (u : MerchantPatch) (now : Time) (clock : nat → Time) (ms : Store)
    (es : EmployeeStore) :
  ms !! id = None →
  PostgreSQLStorage.updateMerchant hash id u now clock ms es = (ms, es, None).
Proof.
  intros Hid. unfold PostgreSQLStorage.updateMerchant,
    StorageMethods.updateMerchant, select_by_id.
  by rewrite Hid.
Qed.

Lemma updateMerchant_unknown_witness :
  PostgreSQLStorage.updateMerchant sampleHash "m9" (startTimePatch "08:00" "vip")
    (day 1) (frozen 1) twoMerchants staff = (twoMerchants, staff, None).
Proof.
  apply (updateMerchant_unknown sampleHash "m9" (startTimePatch "08:00" "vip")
           (day 1) (frozen 1) twoMerchants staff).
  reflexivity.
Defined.






(** X20. [updateMerchantPassword] answers [true] also when no merchant has
    the id, in which case the table is unchanged; on a merchant that is
    there, it stores the hash of the new password and the time of the call,
    and leaves the access columns and the other rows as they are. *)
Theorem updateMerchantPassword_reports_success (hash : string → string)
    (id newPassword : string) (now : Time) (st : Store) :
  let st' := (updateMerchantPassword hash id newPassword now st).1 in
  (updateMerchantPassword hash id newPassword now st).2 = true ∧
  (st !! id = None → st' = st) ∧
  (∀ j, j ≠ id → st' !! j = st !! j) ∧
  (∀ m, st !! id = Some m →
     ∃ m', st' !! id = Some m' ∧
           password (profile m') = hash newPassword ∧
           updatedAt m' = now ∧
           status m' = status m ∧
           accessStartDate m' = accessStartDate m ∧
           accessEndDate m' = accessEndDate m ∧
           paymentStatus m' = paymentStatus m ∧
           email (profile m') = email (profile m)).
Proof.
  cbv zeta. unfold updateMerchantPassword. cbn [fst snd].
  split; [done |]. split; [| split].
  - intros Hid. rewrite alter_alt. by rewrite Hid.
  - intros j Hj. by rewrite lookup_alter_ne.
  - intros m Hid. rewrite lookup_alter_eq, Hid. simpl.
    eexists. split; [reflexivity |]. repeat split.
Qed.

Lemma updateMerchantPassword_reports_success_witness :
  (updateMerchantPassword sampleHash "m9" "segredo" (day 1) twoMerchants).2 = true ∧
  (updateMerchantPassword sampleHash "m9" "segredo" (day 1) twoMerchants).1
    = twoMerchants.
Proof.
  destruct (updateMerchantPassword_reports_success sampleHash "m9" "segredo"
              (day 1) twoMerchants) as (Htrue & Hsame & _).
  split; [exact Htrue |]. apply Hsame. reflexivity.
Defined.


(** ** The payment polling, continued *)

Module PollingFacts.
Import MerchantSignupForm.

Lemma checkPaymentStatus_terminal (r : Check) (f : Form) :
  terminal r → checkInterval (checkPaymentStatus r f) = false.
Proof. by intros [-> | [-> | ->]]. Qed.

Lemma checkPaymentStatus_requests (r : Check) (f : Form) :
  requests (checkPaymentStatus r f) = requests f ∧
  inFlight (checkPaymentStatus r f) = inFlight f.
Proof.
  destruct r as [s|]; [| done]. unfold checkPaymentStatus.
  by repeat case_bool_decide.
Qed.

Lemma stopChecking_requests (rendered : PaymentStatus) (f : Form) :
  requests (stopChecking rendered f) = requests f.
Proof. unfold stopChecking. by case_bool_decide. Qed.

(** With the interval cleared and no request in flight, no event changes
    the form, unless the timeout reads ['processing']. *)
Lemma handle_quiet (rendered : PaymentStatus) (gateway : nat → Check) (f : Form)
    (e : Event) :
  rendered ≠ processing → checkInterval f = false → inFlight f = [] →
  handle rendered gateway f e = f.
Proof.
  intros Hr Hc Hf. destruct e as [|k|]; simpl.
  - by rewrite Hc.
  - rewrite Hf. rewrite bool_decide_eq_false_2; [done |]. apply not_elem_of_nil.
  - unfold stopChecking. rewrite bool_decide_eq_false_2 by done.
    destruct f as [ps chk ci ts st rq fl]. simpl in Hc. by subst ci.
Qed.

(** With the interval cleared, no request is sent. *)
Lemma handle_cleared_requests (rendered : PaymentStatus) (gateway : nat → Check)
    (f : Form) (e : Event) :
  checkInterval f = false → requests (handle rendered gateway f e) = requests f.
Proof.
  intros Hc. destruct e as [|k|]; simpl.
  - by rewrite Hc.
  - case_bool_decide; [| done]. by rewrite (proj1 (checkPaymentStatus_requests _ _)).
  - apply stopChecking_requests.
Qed.

(** Every request is sent by a callback of the interval. *)
Lemma requests_bound (rendered : PaymentStatus) (gateway : nat → Check)
    (schedule : list Event) :
  ∀ f, (requests (foldl (handle rendered gateway) f schedule)
        ≤ requests f + ticks schedule)%nat.
Proof.
  induction schedule as [|e l IH]; intros f; [simpl; lia |].
  cbn [foldl]. etrans; [apply IH |]. unfold ticks. rewrite filter_cons.
  destruct e as [|k|]; simpl.
  - destruct (checkInterval f); simpl; lia.
  - case_bool_decide; [| lia].
    rewrite (proj1 (checkPaymentStatus_requests _ _)). simpl. lia.
  - rewrite stopChecking_requests. lia.
Qed.

(** X21. An approval, a rejection or a cancellation that arrives while no
    other request is in flight ends the polling: the interval is cleared,
    the form is ['approved'] with one more signup scheduled after an
    approval and ['failed'] with the retry button otherwise, and nothing that
    comes afterwards changes the form, whatever the gateway would answer
    and however long the page stays open, as long as the timeout does not
    read ['processing']. *)
Theorem first_answer_decides (rendered : PaymentStatus) (gateway : nat → Check)
    (before after : list Event) (k : nat) (f : Form) :
  rendered ≠ processing →
  terminal (gateway k) →
  inFlight (run rendered gateway before f) = [k] →
  let s := run rendered gateway before f in
  let r := run rendered gateway (before ++ Answer k :: after) f in
  r = checkPaymentStatus (gateway k) (answered k s) ∧
  checkInterval r = false ∧
  inFlight r = [] ∧
  (gateway k = Status "approved" →
   paymentStatus r = approved ∧ signupTimers r = S (signupTimers s) ∧
   toasts r = (toasts s ++ [PagamentoAprovado])%list ∧ retryShown r = false) ∧
  (gateway k ≠ Status "approved" →
   paymentStatus r = failed ∧ signupTimers r = signupTimers s ∧
   toasts r = (toasts s ++ [PagamentoNaoAprovado])%list ∧ retryShown r = true).
Proof.
  intros Hr Hk Hflight. cbv zeta.
  set (s := run rendered gateway before f) in *.
  set (g := checkPaymentStatus (gateway k) (answered k s)).
  assert (checkInterval g = false) as Hc by by apply checkPaymentStatus_terminal.
  assert (inFlight g = []) as Hg.
  { unfold g. rewrite (proj2 (checkPaymentStatus_requests _ _)). simpl.
    rewrite Hflight, filter_cons, decide_False by (intros H; by apply H). done. }
  assert (run rendered gateway (before ++ Answer k :: after) f = g) as ->.
  { unfold run. rewrite foldl_app. fold (run rendered gateway before f). fold s.
    cbn [foldl handle]. rewrite Hflight.
    rewrite bool_decide_eq_true_2 by by left. fold g.
    apply (SignupFacts.foldl_handle_keeps (λ f, f = g)); [| done].
    intros f' e ->. by apply handle_quiet. }
  split; [done |]. split; [done |]. split; [done |]. split.
  - intros Hap. unfold g. rewrite Hap. repeat split.
  - intros Hne. unfold g. destruct Hk as [Hk | [Hk | Hk]]; [done | |];
      rewrite Hk; repeat split.
Qed.

Lemma first_answer_decides_witness :
  let r := run pending (approvesAt 2)
             [Tick; Answer 0; Tick; Answer 1; Tick; Answer 2; Tick; Timeout; Tick]%nat
             initialForm in
  paymentStatus r = approved ∧ signupTimers r = 1%nat ∧ checkInterval r = false.
Proof.
  destruct (first_answer_decides pending (approvesAt 2)
              [Tick; Answer 0; Tick; Answer 1; Tick]%nat [Tick; Timeout; Tick]
              2%nat initialForm)
    as (_ & Hstop & _ & Happroved & _).
  - discriminate.
  - by left.
  - reflexivity.
  - destruct (Happroved eq_refl) as (Hs & Ht & _). cbv zeta.
    split; [exact Hs | split; [exact Ht | exact Hstop]].
Defined.

(** X22. A check that fails counts as a check that answers ['pending']: the
    run with a gateway whose requests may fail ends in the form in which the
    run ends when each failed request answers ['pending'] instead, under
    every schedule. *)
Theorem errors_count_as_pending (rendered : PaymentStatus) (gateway : nat → Check)
    (schedule : list Event) (f : Form) :
  run rendered gateway schedule f = run rendered (errorsAsPending gateway) schedule f.
Proof.
  unfold run. apply foldl_pointwise. intros g e.
  destruct e as [|k|]; [done | | done]. simpl.
  unfold errorsAsPending. by destruct (gateway k).
Qed.

(** X23. The polling sends nothing after the ceiling.  The 600 periods of 3
    seconds make the 30 minutes of the timeout; once its callback has run,
    the interval is cleared for good and no further request is sent, so that
    the requests of the whole run are those sent before the timeout, one for
    each callback of the interval at most: 600 at most when no callback of
    the interval runs before it is due. *)
Theorem run_ends_at_ceiling (rendered : PaymentStatus) (gateway : nat → Check)
    (before after : list Event) (f : Form) :
  let r := run rendered gateway (before ++ Timeout :: after) f in
  maxChecks = 600%nat ∧
  checkIntervalMs * 600 = ceilingMs ∧
  checkInterval r = false ∧
  requests r = requests (run rendered gateway before f) ∧
  (requests r ≤ requests f + ticks before)%nat ∧
  ((ticks before ≤ maxChecks)%nat → (requests r ≤ requests f + 600)%nat).
Proof.
  cbv zeta.
  assert (requests (run rendered gateway (before ++ Timeout :: after) f)
          = requests (run rendered gateway before f)) as Hsame.
  { unfold run. rewrite foldl_app. cbn [foldl].
    set (s := foldl _ (startPayment f) before).
    apply (proj2 (SignupFacts.foldl_handle_keeps
             (λ g, checkInterval g = false ∧ requests g = requests s)
             rendered gateway after
             (λ g e '(conj Hc Hg),
                conj (SignupFacts.handle_cleared rendered gateway g e Hc)
                     (eq_trans (handle_cleared_requests rendered gateway g e Hc) Hg))
             (handle rendered gateway s Timeout)
             (conj (SignupFacts.stopChecking_cleared rendered s)
                   (stopChecking_requests rendered s)))). }
  pose proof (requests_bound rendered gateway before (startPayment f)) as Hbound.
  fold (run rendered gateway before f) in Hbound. simpl in Hbound.
  split; [apply SignupFacts.maxChecks_600 |]. split; [done |].
  split; [apply SignupFacts.run_stops |]. split; [done |].
  rewrite Hsame. split; [done |].
  rewrite SignupFacts.maxChecks_600. lia.
Qed.

(** A request that is in flight when the polling ends is still answered:
    with two requests in flight and a charge that is approved, the approval
    is shown and the signup scheduled twice; a request sent just before the
    timeout is answered after it. *)
Example slow_answers :
  (let r := run pending (λ _, Status "approved") [Tick; Tick; Answer 0; Answer 1]%nat
              initialForm in
   toasts r = [PagamentoAprovado; PagamentoAprovado] ∧ signupTimers r = 2%nat) ∧
  (let r := run pending (λ _, Status "rejected") [Tick; Timeout; Answer 0]%nat
              initialForm in
   paymentStatus r = failed ∧ toasts r = [PagamentoNaoAprovado]).
Proof. by vm_compute. Qed.

End PollingFacts.
